(** * Naming-string generation (services of the autonamer)

    A shallow embedding of the naming pipeline of
    [src/components/CopyRow.tsx] (the second document of that file: the
    "Excel-parity helpers" and the two generators) together with the
    [FormData] and [GeneratedOutputs] interfaces of [src/types.ts].

    JavaScript strings are sequences of UTF-16 code units; the regular
    expressions of the source carry no [u] flag, so they work on code
    units as well.  A string is therefore a list of code units, each a
    number in [N]. *)

From Stdlib Require Import List NArith Bool Lia Arith String Ascii.
Import ListNotations.

Local Open Scope N_scope.
Local Open Scope list_scope.

(** ** Strings and values *)

Definition codeunit := N.
Definition jsstring := list codeunit.

(** ASCII literals of the source, as code units. *)
Definition str (s : string) : jsstring :=
  map N_of_ascii (list_ascii_of_string s).

(** The values a parameter of TypeScript type [unknown] can hold, as far
    as [typeof] tells them apart. *)
Inductive value : Type :=
| VUndefined
| VNull
| VBoolean (b : bool)
| VNumber (n : N)
| VString (s : jsstring)
| VObject.

(** [typeof s === 'string'] *)
Definition isString (v : value) : bool :=
  match v with VString _ => true | _ => false end.

(** Truthiness of a string in a conditional: [s ? a : b]. *)
Definition truthy (s : jsstring) : bool :=
  match s with [] => false | _ :: _ => true end.

(** [p !== ''] *)
Definition nonEmpty (s : jsstring) : bool := truthy s.

(** ** Code-unit classes *)

Definition COMMA : codeunit := 44.
Definition DASH : codeunit := 45.
Definition SPACE : codeunit := 32.
Definition TAB : codeunit := 9.

(** [CLEAN_RE = /[\u00A0\u200B\u200D\u2060]/g]: NBSP and the zero-width
    variants. *)
Definition CLEAN_RE (c : codeunit) : bool :=
  (c =? 0xA0) || (c =? 0x200B) || (c =? 0x200D) || (c =? 0x2060).

(** ECMAScript WhiteSpace and LineTerminator: what [String.prototype.trim]
    strips and what the class [\s] matches. *)
Definition isWhiteSpace (c : codeunit) : bool :=
  (c =? 0x09) || (c =? 0x0A) || (c =? 0x0B) || (c =? 0x0C) || (c =? 0x0D)
  || (c =? 0x20) || (c =? 0xA0) || (c =? 0x1680)
  || ((0x2000 <=? c) && (c <=? 0x200A))
  || (c =? 0x2028) || (c =? 0x2029) || (c =? 0x202F) || (c =? 0x205F)
  || (c =? 0x3000) || (c =? 0xFEFF).

(** The six ASCII whitespace characters. *)
Definition isAsciiWhiteSpace (c : codeunit) : bool :=
  (c =? 0x09) || (c =? 0x0A) || (c =? 0x0B) || (c =? 0x0C) || (c =? 0x0D)
  || (c =? 0x20).

(** ** String primitives *)

(** [s.replace(re, rep)] for a global regular expression [re] that matches
    exactly one code unit of class [p]. *)
Fixpoint replaceAllUnit (p : codeunit -> bool) (rep : jsstring) (s : jsstring)
  : jsstring :=
  match s with
  | [] => []
  | c :: rest => (if p c then rep else [c]) ++ replaceAllUnit p rep rest
  end.

(** [String.prototype.trim] *)
Fixpoint trimStart (s : jsstring) : jsstring :=
  match s with
  | [] => []
  | c :: rest => if isWhiteSpace c then trimStart rest else s
  end.

Definition trimEnd (s : jsstring) : jsstring := rev (trimStart (rev s)).

Definition trim (s : jsstring) : jsstring := trimEnd (trimStart s).

(** [Array.prototype.join] on an array of strings. *)
Fixpoint join (delimiter : jsstring) (parts : list jsstring) : jsstring :=
  match parts with
  | [] => []
  | [p] => p
  | p :: rest => p ++ delimiter ++ join delimiter rest
  end.

(** ** Excel-parity helpers *)

Definition clean (s : value) : jsstring :=
  match s with
  | VString s => trim (replaceAllUnit CLEAN_RE [] s)
  | _ => []
  end.

Definition textJoin (delimiter : jsstring) (parts : list value) : jsstring :=
  let filtered := filter nonEmpty (map clean parts) in
  join delimiter filtered.

(** [s.replace(/,\s/g, '-')]: scanning from the left, a comma followed by
    a whitespace code unit is one match; the scan resumes after it. *)
Fixpoint substituteCommaSpaceToDash (s : jsstring) : jsstring :=
  match s with
  | [] => []
  | c :: rest =>
      match rest with
      | d :: rest' =>
          if (c =? COMMA) && isWhiteSpace d
          then DASH :: substituteCommaSpaceToDash rest'
          else c :: substituteCommaSpaceToDash rest
      | [] => [c]
      end
  end.

(** ** Ad set parity helpers *)

Definition removeNormalSpaces (s : jsstring) : jsstring :=
  replaceAllUnit (fun c => c =? SPACE) [] s.

Definition replaceCommasWithDash (s : jsstring) : jsstring :=
  replaceAllUnit (fun c => c =? COMMA) [DASH] s.

Definition cleanAdSetVideo (s : value) : jsstring :=
  removeNormalSpaces (clean s).

Definition cleanAdSetStatic (s : value) : jsstring :=
  removeNormalSpaces (replaceCommasWithDash (clean s)).

Definition textJoinWith (delimiter : jsstring) (parts : list value)
  (cleaner : value -> jsstring) : jsstring :=
  let filtered := filter nonEmpty (map cleaner parts) in
  join delimiter filtered.

(** The normalized values that survive the filter of a join. *)
Definition survivors (cleaner : value -> jsstring) (parts : list value)
  : list jsstring :=
  filter nonEmpty (map cleaner parts).

(** ** The form record ([FormData] of [types.ts]) *)

Record FormData : Type := {
  account : jsstring;
  productGeo : jsstring;
  trial : jsstring;
  conceptId : jsstring;
  assetId : jsstring;
  focus : jsstring;
  theme : jsstring;
  shortConceptDesc : jsstring;
  testVariable : jsstring;
  testDesc : jsstring;
  age : jsstring;
  ethnicity : jsstring;
  ratio : jsstring;
  style : jsstring;
  graphic : jsstring;
  sound : jsstring;
  productCode : jsstring;
  projectCode : jsstring;
  ncon : bool;
  variant : jsstring;
  adTextCode : jsstring;
  seq : jsstring;
  title : jsstring;
  intro : jsstring;
  seqDesc : jsstring;
  hookTheme : jsstring;
  hookDesc : jsstring;
  visualTheme : jsstring;
  visualObject : jsstring;
  carouselCode : jsstring;
  carouselDesc : jsstring;
  titleDesc : jsstring;
  visualIdentifier : jsstring
}.

Record GeneratedOutputs : Type := {
  adSet : jsstring;
  adLevel : jsstring
}.

(** ** Pieces shared by the two generators

    The local constants of the generators, one definition each, so that
    statements can name them. *)

Definition nconStr (data : FormData) : jsstring :=
  if ncon data then str "NCON" else [].

Definition projectCodeVariant (data : FormData) : jsstring :=
  if truthy (variant data)
  then clean (VString (projectCode data)) ++ clean (VString (variant data))
  else clean (VString (projectCode data)).

(** [clean(x) ? `${tag}${clean(x)}` : ''] *)
Definition tagged (tag : string) (x : jsstring) : jsstring :=
  if truthy (clean (VString x)) then str tag ++ clean (VString x) else [].

(** ** The video generator *)

Definition videoAdSetParts (data : FormData) : list value :=
  [ VString (account data);
    VString (productGeo data);
    VString (trial data);
    VString (conceptId data);
    VString (assetId data);
    VString (focus data);
    VString (theme data);
    VString (shortConceptDesc data);
    VString (seq data);
    VString (title data);
    VString (intro data);
    VString (testVariable data);
    VString (testDesc data);
    VString (nconStr data);
    VString (age data);
    VString (ethnicity data);
    VString (ratio data);
    VString (style data);
    VString (graphic data);
    VString (productCode data);
    VString (projectCode data) ].

Definition videoSPart (data : FormData) : jsstring := tagged "S-" (seqDesc data).

Definition videoTPart (data : FormData) : jsstring :=
  textJoin (str "-")
    [ VString (tagged "T-" (hookTheme data)); VString (hookDesc data) ].

Definition videoVPart (data : FormData) : jsstring :=
  textJoin (str "-")
    [ VString (tagged "V-" (visualTheme data)); VString (visualObject data) ].

Definition videoAPart (data : FormData) : jsstring := tagged "A-" (sound data).

(** The list handed to the ad-level join, over the composed pieces. *)
Definition videoAdLevelList (data : FormData)
  (sPart tPart vPart aPart projectCodeVariant : jsstring) : list value :=
  [ VString (account data);
    VString (productGeo data);
    VString (trial data);
    VString (conceptId data);
    VString (assetId data);
    VString (focus data);
    VString (theme data);
    VString (shortConceptDesc data);
    VString (seq data);
    VString (title data);
    VString (intro data);
    VString sPart;
    VString tPart;
    VString vPart;
    VString aPart;
    VString (nconStr data);
    VString (age data);
    VString (ethnicity data);
    VString (ratio data);
    VString (style data);
    VString (graphic data);
    VString (productCode data);
    VString projectCodeVariant;
    VString (adTextCode data) ].

Definition videoAdLevelParts (data : FormData) : list value :=
  videoAdLevelList data (videoSPart data) (videoTPart data)
    (videoVPart data) (videoAPart data) (projectCodeVariant data).

Definition videoAdLevelRaw (data : FormData) : jsstring :=
  textJoin (str "_") (videoAdLevelParts data).

Definition generateVideoOutputs (data : FormData) : GeneratedOutputs :=
  {| adSet := textJoinWith (str "_") (videoAdSetParts data) cleanAdSetVideo;
     adLevel := substituteCommaSpaceToDash (videoAdLevelRaw data) |}.

(** ** The static generator *)

Definition ageStr (data : FormData) : jsstring := age data.

Definition staticAdSetParts (data : FormData) : list value :=
  [ VString (account data);          (* A *)
    VString (productGeo data);       (* B *)
    VString (trial data);            (* C *)
    VString (conceptId data);        (* D *)
    VString (assetId data);          (* E *)
    VString (focus data);            (* F *)
    VString (theme data);            (* G *)
    VString (shortConceptDesc data); (* H *)
    VString (carouselCode data);     (* I *)
    VString (title data);            (* J *)
    VString (intro data);            (* K *)
    VString (testVariable data);     (* L *)
    VString (testDesc data);         (* M *)
    VString []; VString []; VString []; VString [];  (* N..Q *)
    VString (nconStr data);          (* R *)
    VString (ageStr data);           (* S *)
    VString (ethnicity data);        (* T *)
    VString (ratio data);            (* U *)
    VString (style data);            (* V *)
    VString (graphic data);          (* W *)
    VString (productCode data);      (* X *)
    VString (projectCode data);      (* Y *)
    VString [] ].                    (* Z *)

Definition staticSPart (data : FormData) : jsstring :=
  tagged "S-" (carouselDesc data).

Definition staticTPart (data : FormData) : jsstring :=
  textJoin (str "-")
    [ VString (tagged "T-" (hookTheme data)); VString (titleDesc data) ].

Definition staticVPart (data : FormData) : jsstring :=
  textJoin (str "-")
    [ VString (tagged "V-" (visualTheme data)); VString (visualObject data) ].

Definition staticAPart (data : FormData) : jsstring :=
  tagged "A-" (visualIdentifier data).

Definition staticAdLevelList (data : FormData)
  (sPart tPart vPart aPart projectCodeVariant : jsstring) : list value :=
  [ VString (account data);
    VString (productGeo data);
    VString (trial data);
    VString (conceptId data);
    VString (assetId data);
    VString (focus data);
    VString (theme data);
    VString (shortConceptDesc data);
    VString (carouselCode data);
    VString (title data);
    VString (intro data);
    VString sPart;
    VString tPart;
    VString vPart;
    VString aPart;
    VString (nconStr data);
    VString (ageStr data);
    VString (ethnicity data);
    VString (ratio data);
    VString (style data);
    VString (graphic data);
    VString (productCode data);
    VString projectCodeVariant;
    VString (adTextCode data) ].

Definition staticAdLevelParts (data : FormData) : list value :=
  staticAdLevelList data (staticSPart data) (staticTPart data)
    (staticVPart data) (staticAPart data) (projectCodeVariant data).

Definition staticAdLevelRaw (data : FormData) : jsstring :=
  textJoin (str "_") (staticAdLevelParts data).

Definition generateStaticOutputs (data : FormData) : GeneratedOutputs :=
  {| adSet := textJoinWith (str "_") (staticAdSetParts data) cleanAdSetStatic;
     adLevel := substituteCommaSpaceToDash (staticAdLevelRaw data) |}.

(** ** Sample records *)

Definition emptyForm : FormData :=
  {| account := []; productGeo := []; trial := []; conceptId := [];
     assetId := []; focus := []; theme := []; shortConceptDesc := [];
     testVariable := []; testDesc := []; age := []; ethnicity := [];
     ratio := []; style := []; graphic := []; sound := [];
     productCode := []; projectCode := []; ncon := false; variant := [];
     adTextCode := []; seq := []; title := []; intro := []; seqDesc := [];
     hookTheme := []; hookDesc := []; visualTheme := []; visualObject := [];
     carouselCode := []; carouselDesc := []; titleDesc := [];
     visualIdentifier := [] |}.

(** ** Predicates on strings *)

(** The string does not begin with a whitespace code unit. *)
Definition noLeadWs (s : jsstring) : Prop :=
  match s with
  | [] => True
  | c :: _ => isWhiteSpace c = false
  end.

(** Neither end of the string is a whitespace code unit. *)
Definition Trimmed (s : jsstring) : Prop := noLeadWs s /\ noLeadWs (rev s).

(** No code unit of the string is in class [p]. *)
Definition Avoids (p : codeunit -> bool) (s : jsstring) : Prop :=
  Forall (fun c => p c = false) s.

(** What [clean] returns: free of [CLEAN_RE] code units and trimmed. *)
Definition Normalized (s : jsstring) : Prop := Avoids CLEAN_RE s /\ Trimmed s.

(** What [cleanAdSetVideo] returns. *)
Definition VideoSlug (s : jsstring) : Prop :=
  Normalized s /\ Avoids (fun c => c =? SPACE) s.

(** What [cleanAdSetStatic] returns. *)
Definition StaticSlug (s : jsstring) : Prop :=
  Normalized s /\ Avoids (fun c => c =? SPACE) s
  /\ Avoids (fun c => c =? COMMA) s.

(** ** The Text Normalizer as the specification words it

    Section 4.1 of the specification: non-string input gives the empty
    string; the four code units are removed; then leading and trailing
    ASCII whitespace is trimmed.  Kept apart from [clean], which is the
    code, to compare the two. *)

Fixpoint trimStartAscii (s : jsstring) : jsstring :=
  match s with
  | [] => []
  | c :: rest => if isAsciiWhiteSpace c then trimStartAscii rest else s
  end.

Definition trimAscii (s : jsstring) : jsstring :=
  rev (trimStartAscii (rev (trimStartAscii s))).

Definition normalize_spec (v : value) : jsstring :=
  match v with
  | VString s =>
      trimAscii (filter (fun c => negb (CLEAN_RE c)) s)
  | _ => []
  end.

(** ** The final ad-level pass as the specification words it

    Section 4.4: replace every occurrence of the literal two-character
    sequence comma-space with a dash.  Kept apart from
    [substituteCommaSpaceToDash], which is the code. *)

Fixpoint substituteLiteral_spec (s : jsstring) : jsstring :=
  match s with
  | [] => []
  | c :: rest =>
      match rest with
      | d :: rest' =>
          if (c =? COMMA) && (d =? SPACE)
          then DASH :: substituteLiteral_spec rest'
          else c :: substituteLiteral_spec rest
      | [] => [c]
      end
  end.

(** Some comma of the string is directly followed by a code unit of
    class [w]. *)
Fixpoint hasCommaThen (w : codeunit -> bool) (s : jsstring) : bool :=
  match s with
  | [] => false
  | c :: rest =>
      match rest with
      | d :: _ => ((c =? COMMA) && w d) || hasCommaThen w rest
      | [] => false
      end
  end.

(** The string holds the two code units comma, U+0020 next to each other. *)
Definition ContainsCommaSpace (s : jsstring) : Prop :=
  exists l r, s = l ++ COMMA :: SPACE :: r.

(** Sample records for the final pass: the ad text code holds a comma
    followed by a tab, or by a space. *)
Definition commaTabForm : FormData :=
  {| account := str "US"; productGeo := []; trial := []; conceptId := [];
     assetId := []; focus := []; theme := []; shortConceptDesc := [];
     testVariable := []; testDesc := []; age := []; ethnicity := [];
     ratio := []; style := []; graphic := []; sound := [];
     productCode := []; projectCode := []; ncon := false; variant := [];
     adTextCode := [97; COMMA; TAB; 98];
     seq := []; title := []; intro := []; seqDesc := [];
     hookTheme := []; hookDesc := []; visualTheme := []; visualObject := [];
     carouselCode := []; carouselDesc := []; titleDesc := [];
     visualIdentifier := [] |}.

Definition commaSpaceForm : FormData :=
  {| account := str "US"; productGeo := []; trial := []; conceptId := [];
     assetId := []; focus := []; theme := []; shortConceptDesc := [];
     testVariable := []; testDesc := []; age := []; ethnicity := [];
     ratio := []; style := []; graphic := []; sound := [];
     productCode := []; projectCode := []; ncon := false; variant := [];
     adTextCode := [];
     seq := []; title := []; intro := []; seqDesc := [];
     hookTheme := str "Fear, Urgency"; hookDesc := [];
     visualTheme := []; visualObject := [];
     carouselCode := []; carouselDesc := []; titleDesc := [];
     visualIdentifier := [] |}.

(** ** Composition of a segment as the specification words it

    Section 4.3: the tag-prefixed primary value, present only when it is
    not empty, joined by a dash to the secondary value; either half may be
    absent.  Both arguments are normalized values. *)

Definition segment_spec (tag : string) (primary secondary : jsstring)
  : jsstring :=
  match primary, secondary with
  | [], [] => []
  | [], _ :: _ => secondary
  | _ :: _, [] => str tag ++ primary
  | _ :: _, _ :: _ => str tag ++ primary ++ str "-" ++ secondary
  end.

(** A tag that is plain text: no [CLEAN_RE] code unit and no whitespace
    in front. *)
Definition plainTag (tag : string) : Prop :=
  Avoids CLEAN_RE (str tag) /\ noLeadWs (str tag) /\ str tag <> [].

(** ** Records for the ad-set statements *)

(** [data] with the three fields that the video ad set leaves out
    replaced. *)
Definition withExcluded (data : FormData) (sound' variant' adTextCode' : jsstring)
  : FormData :=
  {| account := account data; productGeo := productGeo data;
     trial := trial data; conceptId := conceptId data;
     assetId := assetId data; focus := focus data; theme := theme data;
     shortConceptDesc := shortConceptDesc data;
     testVariable := testVariable data; testDesc := testDesc data;
     age := age data; ethnicity := ethnicity data; ratio := ratio data;
     style := style data; graphic := graphic data; sound := sound';
     productCode := productCode data; projectCode := projectCode data;
     ncon := ncon data; variant := variant'; adTextCode := adTextCode';
     seq := seq data; title := title data; intro := intro data;
     seqDesc := seqDesc data; hookTheme := hookTheme data;
     hookDesc := hookDesc data; visualTheme := visualTheme data;
     visualObject := visualObject data; carouselCode := carouselCode data;
     carouselDesc := carouselDesc data; titleDesc := titleDesc data;
     visualIdentifier := visualIdentifier data |}.

(** The record of the video scenario: account, geo and trial set, every
    other field of the video ad set empty, the flag off; the fields that
    the video ad set does not read are taken from [other]. *)
Definition scenarioForm (other : FormData) : FormData :=
  {| account := str "US"; productGeo := str "USA"; trial := str "T1";
     conceptId := []; assetId := []; focus := []; theme := [];
     shortConceptDesc := []; testVariable := []; testDesc := [];
     age := []; ethnicity := []; ratio := []; style := []; graphic := [];
     sound := sound other;
     productCode := []; projectCode := []; ncon := false;
     variant := variant other; adTextCode := adTextCode other;
     seq := []; title := []; intro := [];
     seqDesc := seqDesc other; hookTheme := hookTheme other;
     hookDesc := hookDesc other; visualTheme := visualTheme other;
     visualObject := visualObject other;
     carouselCode := carouselCode other;
     carouselDesc := carouselDesc other; titleDesc := titleDesc other;
     visualIdentifier := visualIdentifier other |}.

(** The record of the segment scenario. *)
Definition segmentForm : FormData :=
  {| account := []; productGeo := []; trial := []; conceptId := [];
     assetId := []; focus := []; theme := []; shortConceptDesc := [];
     testVariable := []; testDesc := []; age := []; ethnicity := [];
     ratio := []; style := []; graphic := []; sound := [];
     productCode := []; projectCode := []; ncon := false; variant := [];
     adTextCode := []; seq := []; title := []; intro := []; seqDesc := [];
     hookTheme := str "Fear"; hookDesc := str "Urgency";
     visualTheme := []; visualObject := str "ProductShot";
     carouselCode := []; carouselDesc := []; titleDesc := [];
     visualIdentifier := [] |}.

(** The static ad-set list with the placeholder slots N..Q and Z deleted. *)
Definition staticAdSetParts_spec (data : FormData) : list value :=
  [ VString (account data);
    VString (productGeo data);
    VString (trial data);
    VString (conceptId data);
    VString (assetId data);
    VString (focus data);
    VString (theme data);
    VString (shortConceptDesc data);
    VString (carouselCode data);
    VString (title data);
    VString (intro data);
    VString (testVariable data);
    VString (testDesc data);
    VString (nconStr data);
    VString (ageStr data);
    VString (ethnicity data);
    VString (ratio data);
    VString (style data);
    VString (graphic data);
    VString (productCode data);
    VString (projectCode data) ].

(** ** The helpers with the state of the shared regular expression

    [CLEAN_RE] is one module-level [RegExp] object with the [g] flag, so
    it carries a mutable [lastIndex] that every call of [clean] reads and
    writes.  (The other regular expressions are literals inside the helper
    bodies: each call makes a fresh object.)  This module runs the helpers
    and the generators over that store, following
    [RegExp.prototype[Symbol.replace]] and [RegExpBuiltinExec]; the loop of
    matches runs on fuel, and a run that exhausts it has no result. *)

Module Stateful.

Local Open Scope nat_scope.

Record Store : Type := { lastIndex : nat }.

Definition M (A : Type) : Type := Store -> option (A * Store).

Definition ret {A : Type} (a : A) : M A := fun st => Some (a, st).

Definition bind {A B : Type} (m : M A) (f : A -> M B) : M B :=
  fun st =>
    match m st with
    | Some (a, st') => f a st'
    | None => None
    end.

Definition getLastIndex : M nat := fun st => Some (lastIndex st, st).

Definition setLastIndex (i : nat) : M unit :=
  fun _ => Some (tt, {| lastIndex := i |}).

Definition outOfFuel {A : Type} : M A := fun _ => None.

Notation "x <- m ;; k" := (bind m (fun x => k))
  (at level 61, m at next level, right associativity).

(** The result of a run, without the final store. *)
Definition outputOf {A : Type} (m : M A) (st : Store) : option A :=
  option_map fst (m st).

(** Offset of the first code unit of class [p]. *)
Fixpoint findIndex (p : codeunit -> bool) (s : jsstring) : option nat :=
  match s with
  | [] => None
  | c :: rest => if p c then Some 0 else option_map S (findIndex p rest)
  end.

(** [RegExpBuiltinExec(CLEAN_RE, s)]: the position of the match found
    from [lastIndex] on, which is then set behind the match; on failure
    [lastIndex] is reset. *)
Definition exec (s : jsstring) : M (option nat) :=
  i <- getLastIndex ;;
  if List.length s <? i
  then _ <- setLastIndex 0 ;; ret None
  else
    match findIndex CLEAN_RE (skipn i s) with
    | None => _ <- setLastIndex 0 ;; ret None
    | Some j => _ <- setLastIndex (i + j + 1) ;; ret (Some (i + j))
    end.

(** The loop of [Symbol.replace] that collects the matches. *)
Fixpoint matchAll (fuel : nat) (s : jsstring) : M (list nat) :=
  match fuel with
  | O => outOfFuel
  | S fuel' =>
      r <- exec s ;;
      match r with
      | None => ret []
      | Some k => ks <- matchAll fuel' s ;; ret (k :: ks)
      end
  end.

(** The second loop of [Symbol.replace]: the pieces between the
    one-unit matches, with [rep] for each match. *)
Fixpoint accumulate (s rep : jsstring) (next : nat) (positions : list nat)
  : jsstring :=
  match positions with
  | [] => skipn next s
  | p :: rest =>
      if next <=? p
      then firstn (p - next) (skipn next s) ++ rep
             ++ accumulate s rep (p + 1) rest
      else accumulate s rep next rest
  end.

(** [s.replace(CLEAN_RE, '')] *)
Definition replaceCleanRe (s : jsstring) : M jsstring :=
  _ <- setLastIndex 0 ;;
  ks <- matchAll (S (List.length s)) s ;;
  ret (accumulate s [] 0 ks).

Definition clean (s : value) : M jsstring :=
  match s with
  | VString s => r <- replaceCleanRe s ;; ret (trim r)
  | _ => ret []
  end.

(** [parts.map(f)], left to right. *)
Fixpoint mapM {A B : Type} (f : A -> M B) (l : list A) : M (list B) :=
  match l with
  | [] => ret []
  | a :: rest => b <- f a ;; bs <- mapM f rest ;; ret (b :: bs)
  end.

Definition textJoin (delimiter : jsstring) (parts : list value)
  : M jsstring :=
  cleaned <- mapM clean parts ;;
  ret (join delimiter (filter nonEmpty cleaned)).

Definition cleanAdSetVideo (s : value) : M jsstring :=
  c <- clean s ;; ret (removeNormalSpaces c).

Definition cleanAdSetStatic (s : value) : M jsstring :=
  c <- clean s ;; ret (removeNormalSpaces (replaceCommasWithDash c)).

Definition textJoinWith (delimiter : jsstring) (parts : list value)
  (cleaner : value -> M jsstring) : M jsstring :=
  cleaned <- mapM cleaner parts ;;
  ret (join delimiter (filter nonEmpty cleaned)).

Definition projectCodeVariant (data : FormData) : M jsstring :=
  if truthy (variant data)
  then a <- clean (VString (projectCode data)) ;;
       b <- clean (VString (variant data)) ;;
       ret (a ++ b)
  else clean (VString (projectCode data)).

(** [clean(x) ? `${tag}${clean(x)}` : '']: [clean] runs twice when the
    first result is not empty. *)
Definition tagged (tag : string) (x : jsstring) : M jsstring :=
  c <- clean (VString x) ;;
  if truthy c
  then c' <- clean (VString x) ;; ret (str tag ++ c')
  else ret [].

Definition segment (tag : string) (primary secondary : jsstring)
  : M jsstring :=
  t <- tagged tag primary ;;
  textJoin (str "-") [VString t; VString secondary].

Definition generateVideoOutputs (data : FormData) : M GeneratedOutputs :=
  pcv <- projectCodeVariant data ;;
  adSet <- textJoinWith (str "_") (videoAdSetParts data) cleanAdSetVideo ;;
  sPart <- tagged "S-" (seqDesc data) ;;
  tPart <- segment "T-" (hookTheme data) (hookDesc data) ;;
  vPart <- segment "V-" (visualTheme data) (visualObject data) ;;
  aPart <- tagged "A-" (sound data) ;;
  adLevelRaw <- textJoin (str "_")
                  (videoAdLevelList data sPart tPart vPart aPart pcv) ;;
  ret {| adSet := adSet;
         adLevel := substituteCommaSpaceToDash adLevelRaw |}.

Definition generateStaticOutputs (data : FormData) : M GeneratedOutputs :=
  pcv <- projectCodeVariant data ;;
  adSet <- textJoinWith (str "_") (staticAdSetParts data) cleanAdSetStatic ;;
  sPart <- tagged "S-" (carouselDesc data) ;;
  tPart <- segment "T-" (hookTheme data) (titleDesc data) ;;
  vPart <- segment "V-" (visualTheme data) (visualObject data) ;;
  aPart <- tagged "A-" (visualIdentifier data) ;;
  adLevelRaw <- textJoin (str "_")
                  (staticAdLevelList data sPart tPart vPart aPart pcv) ;;
  ret {| adSet := adSet;
         adLevel := substituteCommaSpaceToDash adLevelRaw |}.

(** The run [m] gives [a] from every store. *)
Definition Returns {A : Type} (m : M A) (a : A) : Prop :=
  forall st, exists st', m st = Some (a, st').

End Stateful.

(** ** Further records and predicates for the generators *)

(** [data] with the two fields that only the ad set reads replaced. *)
Definition withAdSetOnly (data : FormData) (testVariable' testDesc' : jsstring)
  : FormData :=
  {| account := account data; productGeo := productGeo data;
     trial := trial data; conceptId := conceptId data;
     assetId := assetId data; focus := focus data; theme := theme data;
     shortConceptDesc := shortConceptDesc data;
     testVariable := testVariable'; testDesc := testDesc';
     age := age data; ethnicity := ethnicity data; ratio := ratio data;
     style := style data; graphic := graphic data; sound := sound data;
     productCode := productCode data; projectCode := projectCode data;
     ncon := ncon data; variant := variant data;
     adTextCode := adTextCode data;
     seq := seq data; title := title data; intro := intro data;
     seqDesc := seqDesc data; hookTheme := hookTheme data;
     hookDesc := hookDesc data; visualTheme := visualTheme data;
     visualObject := visualObject data; carouselCode := carouselCode data;
     carouselDesc := carouselDesc data; titleDesc := titleDesc data;
     visualIdentifier := visualIdentifier data |}.

(** All the string fields of a record. *)
Definition stringFields (data : FormData) : list jsstring :=
  [ account data; productGeo data; trial data; conceptId data;
    assetId data; focus data; theme data; shortConceptDesc data;
    testVariable data; testDesc data; age data; ethnicity data;
    ratio data; style data; graphic data; sound data; productCode data;
    projectCode data; variant data; adTextCode data; seq data; title data;
    intro data; seqDesc data; hookTheme data; hookDesc data;
    visualTheme data; visualObject data; carouselCode data;
    carouselDesc data; titleDesc data; visualIdentifier data ].

(** A form in which nothing is filled in: the flag is off and every
    string field normalizes to the empty string. *)
Definition BlankForm (data : FormData) : Prop :=
  ncon data = false
  /\ Forall (fun s => clean (VString s) = []) (stringFields data).

Definition blankishForm : FormData :=
  {| account := str "  "; productGeo := [0xA0]; trial := [TAB];
     conceptId := []; assetId := []; focus := []; theme := [];
     shortConceptDesc := []; testVariable := []; testDesc := [];
     age := []; ethnicity := []; ratio := []; style := []; graphic := [];
     sound := str " "; productCode := []; projectCode := [0x200B];
     ncon := false; variant := str " "; adTextCode := [];
     seq := []; title := []; intro := []; seqDesc := [10];
     hookTheme := str " "; hookDesc := []; visualTheme := [];
     visualObject := []; carouselCode := []; carouselDesc := [];
     titleDesc := []; visualIdentifier := [] |}.

(** The run [m] leaves the store as it was or with [lastIndex] at 0. *)
Definition Settles {A : Type} (m : Stateful.M A) : Prop :=
  forall st a st',
    m st = Some (a, st') -> st' = st \/ st' = {| Stateful.lastIndex := 0 |}.

(** The run [m] leaves [lastIndex] at 0. *)
Definition Resets {A : Type} (m : Stateful.M A) : Prop :=
  forall st a st',
    m st = Some (a, st') -> st' = {| Stateful.lastIndex := 0 |}.

(** ** The multi-select field ([MultiSelectField] of
    [src/components/InputField.tsx])

    The field keeps no list of its own: the selection is the [value]
    string of the form, options joined by a dash.  The handlers compute
    the string they hand to [onChange] from [value] and the option. *)

(** [a === b] on strings. *)
Fixpoint jsstring_eqb (a b : jsstring) : bool :=
  match a, b with
  | [], [] => true
  | x :: a', y :: b' => (x =? y) && jsstring_eqb a' b'
  | _, _ => false
  end.

(** [s.split(sep)] for a separator of one code unit. *)
Fixpoint split (sep : codeunit) (s : jsstring) : list jsstring :=
  match s with
  | [] => [[]]
  | c :: rest =>
      if c =? sep then [] :: split sep rest
      else
        match split sep rest with
        | piece :: pieces => (c :: piece) :: pieces
        | [] => [[c]]
        end
  end.

(** [value ? value.split('-').filter(Boolean) : []] *)
Definition selectedValues (value : jsstring) : list jsstring :=
  if truthy value then filter truthy (split DASH value) else [].

(** [values.includes(option)] *)
Definition includes (values : list jsstring) (option : jsstring) : bool :=
  existsb (fun v => jsstring_eqb v option) values.

(** [values.filter(v => v !== option)] *)
Definition without (values : list jsstring) (option : jsstring)
  : list jsstring :=
  filter (fun v => negb (jsstring_eqb v option)) values.

(** The string [toggleOption(option)] hands to [onChange]. *)
Definition toggleOption (value option : jsstring) : jsstring :=
  let newValues :=
    if includes (selectedValues value) option
    then without (selectedValues value) option
    else selectedValues value ++ [option] in
  join (str "-") newValues.

(** The string [removeValue(e, option)] hands to [onChange]. *)
Definition removeValue (value option : jsstring) : jsstring :=
  join (str "-") (without (selectedValues value) option).

(** An option that the dash-joined string can carry: not empty and
    without a dash. *)
Definition Selectable (option : jsstring) : Prop :=
  option <> [] /\ ~ In DASH option.

(** ** Facts about the string primitives *)

Section ReplaceAllUnit.

Variable p : codeunit -> bool.

Lemma replaceAllUnit_delete (s : jsstring) :
  replaceAllUnit p [] s = filter (fun c => negb (p c)) s.
Proof.
  induction s as [|c s IH]; simpl; [reflexivity|].
  rewrite IH. destruct (p c); reflexivity.
Qed.

Lemma replaceAllUnit_subst (d : codeunit) (s : jsstring) :
  replaceAllUnit p [d] s = map (fun c => if p c then d else c) s.
Proof.
  induction s as [|c s IH]; simpl; [reflexivity|].
  rewrite IH. destruct (p c); reflexivity.
Qed.

Lemma replaceAllUnit_app (rep s t : jsstring) :
  replaceAllUnit p rep (s ++ t)
  = replaceAllUnit p rep s ++ replaceAllUnit p rep t.
Proof.
  induction s as [|c s IH]; simpl; [reflexivity|].
  rewrite IH, app_assoc. reflexivity.
Qed.

Lemma replaceAllUnit_Avoids (rep s : jsstring) :
  Avoids p s -> replaceAllUnit p rep s = s.
Proof.
  induction 1 as [|c s Hc _ IH]; simpl; [reflexivity|].
  rewrite Hc, IH. reflexivity.
Qed.

Lemma replaceAllUnit_delete_Avoids (s : jsstring) :
  Avoids p (replaceAllUnit p [] s).
Proof.
  induction s as [|c s IH]; simpl; [constructor|].
  destruct (p c) eqn:E; simpl; [assumption|].
  constructor; assumption.
Qed.

Lemma replaceAllUnit_delete_keeps (q : codeunit -> bool) (s : jsstring) :
  Avoids q s -> Avoids q (replaceAllUnit p [] s).
Proof.
  induction 1 as [|c s Hc _ IH]; simpl; [constructor|].
  destruct (p c); simpl; [assumption|].
  constructor; assumption.
Qed.

Lemma replaceAllUnit_delete_rev (s : jsstring) :
  replaceAllUnit p [] (rev s) = rev (replaceAllUnit p [] s).
Proof.
  induction s as [|c s IH]; simpl; [reflexivity|].
  rewrite replaceAllUnit_app, IH. simpl.
  destruct (p c); simpl; [rewrite app_nil_r|]; reflexivity.
Qed.

Lemma replaceAllUnit_subst_rev (d : codeunit) (s : jsstring) :
  replaceAllUnit p [d] (rev s) = rev (replaceAllUnit p [d] s).
Proof.
  rewrite !replaceAllUnit_subst. apply map_rev.
Qed.

(** Deleting a class of whitespace-only code units keeps a string that
    does not start with whitespace in that shape. *)
Lemma replaceAllUnit_delete_noLeadWs (s : jsstring) :
  (forall c, p c = true -> isWhiteSpace c = true) ->
  noLeadWs s -> noLeadWs (replaceAllUnit p [] s).
Proof.
  intros Hp. destruct s as [|c s]; simpl; [trivial|].
  intros Hc. destruct (p c) eqn:E.
  - apply Hp in E. congruence.
  - simpl. assumption.
Qed.

Lemma replaceAllUnit_subst_noLeadWs (d : codeunit) (s : jsstring) :
  isWhiteSpace d = false ->
  noLeadWs s -> noLeadWs (replaceAllUnit p [d] s).
Proof.
  intros Hd. destruct s as [|c s]; simpl; [trivial|].
  intros Hc. destruct (p c); simpl; assumption.
Qed.

Lemma replaceAllUnit_subst_keeps (q : codeunit -> bool) (d : codeunit)
  (s : jsstring) :
  q d = false -> Avoids q s -> Avoids q (replaceAllUnit p [d] s).
Proof.
  intros Hd. induction 1 as [|c s Hc _ IH]; simpl; [constructor|].
  destruct (p c); constructor; assumption.
Qed.

Lemma replaceAllUnit_subst_Avoids (d : codeunit) (s : jsstring) :
  p d = false -> Avoids p (replaceAllUnit p [d] s).
Proof.
  intros Hd. induction s as [|c s IH]; simpl; [constructor|].
  destruct (p c) eqn:E; constructor; assumption.
Qed.

End ReplaceAllUnit.

Lemma Avoids_app (p : codeunit -> bool) (s t : jsstring) :
  Avoids p (s ++ t) <-> Avoids p s /\ Avoids p t.
Proof. apply Forall_app. Qed.

Lemma Avoids_rev (p : codeunit -> bool) (s : jsstring) :
  Avoids p s -> Avoids p (rev s).
Proof. apply Forall_rev. Qed.

(** *** Trimming *)

Lemma trimStart_noLeadWs (s : jsstring) : noLeadWs (trimStart s).
Proof.
  induction s as [|c s IH]; simpl; [trivial|].
  destruct (isWhiteSpace c) eqn:E; [assumption|]. simpl. assumption.
Qed.

Lemma trimStart_id (s : jsstring) : noLeadWs s -> trimStart s = s.
Proof.
  destruct s as [|c s]; simpl; [reflexivity|].
  intros ->. reflexivity.
Qed.

(** [trimStart] only strips a whitespace prefix. *)
Lemma trimStart_split (s : jsstring) :
  exists l, s = l ++ trimStart s /\ Forall (fun c => isWhiteSpace c = true) l.
Proof.
  induction s as [|c s [l [Hs Hl]]]; simpl.
  - exists []. split; [reflexivity | constructor].
  - destruct (isWhiteSpace c) eqn:E.
    + exists (c :: l). split; [simpl; f_equal; assumption|].
      constructor; assumption.
    + exists []. split; [reflexivity | constructor].
Qed.

Lemma trimStart_app_stop (l m : jsstring) (c : codeunit) :
  isWhiteSpace c = false ->
  trimStart (l ++ c :: m) = trimStart l ++ c :: m.
Proof.
  intros Hc. induction l as [|a l IH]; simpl.
  - rewrite Hc. reflexivity.
  - destruct (isWhiteSpace a); [assumption | reflexivity].
Qed.

Lemma trimStart_Avoids (p : codeunit -> bool) (s : jsstring) :
  Avoids p s -> Avoids p (trimStart s).
Proof.
  induction 1 as [|c s Hc Hs IH]; simpl; [constructor|].
  destruct (isWhiteSpace c); [assumption|]. constructor; assumption.
Qed.

Lemma trimEnd_keeps_noLeadWs (s : jsstring) :
  noLeadWs s -> noLeadWs (trimEnd s).
Proof.
  unfold trimEnd. destruct s as [|c s]; simpl; [trivial|].
  intros Hc. rewrite trimStart_app_stop by assumption.
  rewrite rev_app_distr. simpl. assumption.
Qed.

Lemma trimEnd_split (s : jsstring) :
  exists r, s = trimEnd s ++ r /\ Forall (fun c => isWhiteSpace c = true) r.
Proof.
  unfold trimEnd. destruct (trimStart_split (rev s)) as [l [Hs Hl]].
  exists (rev l). split; [|apply Forall_rev; assumption].
  rewrite <- rev_app_distr, <- Hs, rev_involutive. reflexivity.
Qed.

Lemma trim_Trimmed (s : jsstring) : Trimmed (trim s).
Proof.
  unfold trim. split.
  - apply trimEnd_keeps_noLeadWs, trimStart_noLeadWs.
  - unfold trimEnd. rewrite rev_involutive. apply trimStart_noLeadWs.
Qed.

Lemma Trimmed_trim (s : jsstring) : Trimmed s -> trim s = s.
Proof.
  intros [H1 H2]. unfold trim, trimEnd.
  rewrite (trimStart_id s H1), (trimStart_id _ H2).
  apply rev_involutive.
Qed.

Lemma trim_Avoids (p : codeunit -> bool) (s : jsstring) :
  Avoids p s -> Avoids p (trim s).
Proof.
  intros H. unfold trim, trimEnd.
  apply Avoids_rev, trimStart_Avoids, Avoids_rev, trimStart_Avoids, H.
Qed.

(** [trim] removes a whitespace prefix and a whitespace suffix and
    nothing else. *)
Lemma trim_split (s : jsstring) :
  exists l r,
    s = l ++ trim s ++ r
    /\ Forall (fun c => isWhiteSpace c = true) l
    /\ Forall (fun c => isWhiteSpace c = true) r.
Proof.
  destruct (trimStart_split s) as [l [Hs Hl]].
  destruct (trimEnd_split (trimStart s)) as [r [Ht Hr]].
  exists l, r. repeat split; try assumption.
  unfold trim. rewrite <- Ht. assumption.
Qed.

Lemma trimStart_all_ws (s : jsstring) :
  Forall (fun c => isWhiteSpace c = true) s -> trimStart s = [].
Proof.
  induction 1 as [|c s Hc _ IH]; simpl; [reflexivity|].
  rewrite Hc. assumption.
Qed.

(** ** The normalizers *)

Lemma space_is_whitespace (c : codeunit) :
  (c =? SPACE) = true -> isWhiteSpace c = true.
Proof. intros H. apply N.eqb_eq in H. subst c. reflexivity. Qed.

Lemma clean_not_string (v : value) : isString v = false -> clean v = [].
Proof. destruct v; simpl; intros H; try reflexivity. discriminate. Qed.

Lemma clean_Normalized (v : value) : Normalized (clean v).
Proof.
  destruct v; simpl; try (repeat split; constructor).
  split.
  - apply trim_Avoids, replaceAllUnit_delete_Avoids.
  - apply trim_Trimmed.
Qed.

Lemma Normalized_clean (s : jsstring) : Normalized s -> clean (VString s) = s.
Proof.
  intros [Ha Ht]. simpl.
  rewrite replaceAllUnit_Avoids by assumption.
  apply Trimmed_trim. assumption.
Qed.

Lemma removeNormalSpaces_Trimmed (s : jsstring) :
  Trimmed s -> Trimmed (removeNormalSpaces s).
Proof.
  intros [H1 H2]. unfold removeNormalSpaces. split.
  - apply replaceAllUnit_delete_noLeadWs; [apply space_is_whitespace | assumption].
  - rewrite <- replaceAllUnit_delete_rev.
    apply replaceAllUnit_delete_noLeadWs; [apply space_is_whitespace | assumption].
Qed.

Lemma replaceCommasWithDash_Trimmed (s : jsstring) :
  Trimmed s -> Trimmed (replaceCommasWithDash s).
Proof.
  intros [H1 H2]. unfold replaceCommasWithDash. split.
  - apply replaceAllUnit_subst_noLeadWs; [reflexivity | assumption].
  - rewrite <- replaceAllUnit_subst_rev.
    apply replaceAllUnit_subst_noLeadWs; [reflexivity | assumption].
Qed.

Lemma cleanAdSetVideo_VideoSlug (v : value) : VideoSlug (cleanAdSetVideo v).
Proof.
  destruct (clean_Normalized v) as [Ha Ht].
  unfold cleanAdSetVideo. repeat split.
  - apply replaceAllUnit_delete_keeps, Ha.
  - apply removeNormalSpaces_Trimmed, Ht.
  - apply removeNormalSpaces_Trimmed, Ht.
  - apply replaceAllUnit_delete_Avoids.
Qed.

Lemma VideoSlug_cleanAdSetVideo (s : jsstring) :
  VideoSlug s -> cleanAdSetVideo (VString s) = s.
Proof.
  intros [Hn Hs]. unfold cleanAdSetVideo, removeNormalSpaces.
  rewrite (Normalized_clean s Hn).
  apply replaceAllUnit_Avoids, Hs.
Qed.

Lemma cleanAdSetStatic_StaticSlug (v : value) : StaticSlug (cleanAdSetStatic v).
Proof.
  destruct (clean_Normalized v) as [Ha Ht].
  unfold cleanAdSetStatic. repeat split.
  - apply replaceAllUnit_delete_keeps.
    apply replaceAllUnit_subst_keeps; [reflexivity | exact Ha].
  - apply removeNormalSpaces_Trimmed, replaceCommasWithDash_Trimmed, Ht.
  - apply removeNormalSpaces_Trimmed, replaceCommasWithDash_Trimmed, Ht.
  - apply replaceAllUnit_delete_Avoids.
  - apply replaceAllUnit_delete_keeps.
    apply replaceAllUnit_subst_Avoids. reflexivity.
Qed.

Lemma StaticSlug_cleanAdSetStatic (s : jsstring) :
  StaticSlug s -> cleanAdSetStatic (VString s) = s.
Proof.
  intros [Hn [Hs Hc]].
  unfold cleanAdSetStatic, removeNormalSpaces, replaceCommasWithDash.
  rewrite (Normalized_clean s Hn).
  rewrite (replaceAllUnit_Avoids _ _ s Hc).
  apply replaceAllUnit_Avoids, Hs.
Qed.

(** C7.  Each of the three normalizers is idempotent: for every string
    [x], applying [clean], [cleanAdSetVideo] or [cleanAdSetStatic] to its
    own output on [x] returns that output unchanged. *)
Theorem normalizers_idempotent (x : jsstring) :
  clean (VString (clean (VString x))) = clean (VString x)
  /\ cleanAdSetVideo (VString (cleanAdSetVideo (VString x)))
     = cleanAdSetVideo (VString x)
  /\ cleanAdSetStatic (VString (cleanAdSetStatic (VString x)))
     = cleanAdSetStatic (VString x).
Proof.
  repeat split.
  - apply Normalized_clean, clean_Normalized.
  - apply VideoSlug_cleanAdSetVideo, cleanAdSetVideo_VideoSlug.
  - apply StaticSlug_cleanAdSetStatic, cleanAdSetStatic_StaticSlug.
Qed.

(** The same holds from any value, a non-string one included. *)
Lemma normalizers_idempotent_value (v : value) :
  clean (VString (clean v)) = clean v
  /\ cleanAdSetVideo (VString (cleanAdSetVideo v)) = cleanAdSetVideo v
  /\ cleanAdSetStatic (VString (cleanAdSetStatic v)) = cleanAdSetStatic v.
Proof.
  repeat split.
  - apply Normalized_clean, clean_Normalized.
  - apply VideoSlug_cleanAdSetVideo, cleanAdSetVideo_VideoSlug.
  - apply StaticSlug_cleanAdSetStatic, cleanAdSetStatic_StaticSlug.
Qed.

Example clean_nbsp_padded :
  clean (VString ([0xA0; 32] ++ str "a b" ++ [0x200B; 9])) = str "a b".
Proof. reflexivity. Qed.

Example cleanAdSetStatic_tags :
  cleanAdSetStatic (VString (str " Fear, Urgency ")) = str "Fear-Urgency".
Proof. reflexivity. Qed.

(** *** The normalizer against its specification *)

Lemma trimStartAscii_agrees (s : jsstring) :
  Forall (fun c => isWhiteSpace c = isAsciiWhiteSpace c) s ->
  trimStart s = trimStartAscii s.
Proof.
  induction 1 as [|c s Hc _ IH]; simpl; [reflexivity|].
  rewrite <- Hc. destruct (isWhiteSpace c); [assumption | reflexivity].
Qed.

Lemma trimStart_Forall (P : codeunit -> Prop) (s : jsstring) :
  Forall P s -> Forall P (trimStart s).
Proof.
  induction 1 as [|c s Hc Hs IH]; simpl; [constructor|].
  destruct (isWhiteSpace c); [assumption|]. constructor; assumption.
Qed.

(** On input whose only non-ASCII whitespace is what [CLEAN_RE] deletes,
    the code and the specification's normalizer agree. *)
Lemma clean_agrees_with_spec (s : jsstring) :
  Forall (fun c => CLEAN_RE c = true
                   \/ isWhiteSpace c = isAsciiWhiteSpace c) s ->
  clean (VString s) = normalize_spec (VString s).
Proof.
  intros H. simpl. rewrite replaceAllUnit_delete.
  set (t := filter (fun c => negb (CLEAN_RE c)) s).
  assert (Ht : Forall (fun c => isWhiteSpace c = isAsciiWhiteSpace c) t).
  { apply Forall_forall. intros c Hc. apply filter_In in Hc.
    destruct Hc as [Hin Hc]. rewrite Forall_forall in H.
    destruct (H c Hin) as [E|E]; [|exact E].
    rewrite E in Hc. discriminate. }
  unfold trim, trimEnd, trimAscii.
  rewrite <- (trimStartAscii_agrees t Ht).
  rewrite <- trimStartAscii_agrees; [reflexivity|].
  apply Forall_rev, trimStart_Forall, Ht.
Qed.

(** C4, the claim as stated fails: [trim] also strips the ideographic
    space U+3000, which is whitespace but not ASCII. *)
Lemma clean_trims_beyond_ascii :
  clean (VString [0x3000; 97]) = [97]
  /\ normalize_spec (VString [0x3000; 97]) = [0x3000; 97]
  /\ clean (VString [0x3000; 97]) <> normalize_spec (VString [0x3000; 97]).
Proof. repeat split. discriminate. Qed.

(** C4, amended.  [clean] returns the empty string on every value that
    is not a string.  On a string it deletes every U+00A0, U+200B, U+200D
    and U+2060 and then strips a prefix and a suffix made of whitespace
    code units in the sense of [String.prototype.trim] (ASCII whitespace
    and the non-ASCII WhiteSpace and LineTerminator code units alike),
    leaving a result with no whitespace at either end; nothing else is
    changed. *)
Theorem clean_removes_then_trims (v : value) :
  match v with
  | VString s =>
      exists l r,
        filter (fun c => negb (CLEAN_RE c)) s = l ++ clean v ++ r
        /\ Forall (fun c => isWhiteSpace c = true) l
        /\ Forall (fun c => isWhiteSpace c = true) r
        /\ Trimmed (clean v)
  | _ => clean v = []
  end.
Proof.
  destruct v; try reflexivity.
  simpl. rewrite replaceAllUnit_delete.
  destruct (trim_split (filter (fun c => negb (CLEAN_RE c)) s))
    as [l [r [Hs [Hl Hr]]]].
  exists l, r. repeat split; try assumption; apply trim_Trimmed.
Qed.

(** ** The join utility *)

Lemma textJoin_textJoinWith (delimiter : jsstring) (parts : list value) :
  textJoin delimiter parts = textJoinWith delimiter parts clean.
Proof. reflexivity. Qed.

Lemma textJoinWith_survivors (delimiter : jsstring) (parts : list value)
  (cleaner : value -> jsstring) :
  textJoinWith delimiter parts cleaner
  = join delimiter (survivors cleaner parts).
Proof. reflexivity. Qed.

Section SkipBlanks.

Variable cleaner : value -> jsstring.

Lemma survivors_app (p q : list value) :
  survivors cleaner (p ++ q) = survivors cleaner p ++ survivors cleaner q.
Proof. unfold survivors. rewrite map_app, filter_app. reflexivity. Qed.

Lemma survivors_blank (blanks : list value) :
  Forall (fun v => cleaner v = []) blanks -> survivors cleaner blanks = [].
Proof.
  unfold survivors.
  induction 1 as [|v l Hv _ IH]; simpl; [reflexivity|].
  rewrite Hv. simpl. assumption.
Qed.

Lemma survivors_keep (x : value) :
  cleaner x <> [] -> survivors cleaner [x] = [cleaner x].
Proof.
  unfold survivors. simpl. destruct (cleaner x); [congruence | reflexivity].
Qed.

Lemma survivors_nonEmpty (parts : list value) :
  Forall (fun s => s <> []) (survivors cleaner parts).
Proof.
  apply Forall_forall. intros s Hs. apply filter_In in Hs.
  destruct Hs as [_ Hs]. destruct s; [discriminate | congruence].
Qed.

End SkipBlanks.

(** C5.  Skip-blank law of the join utility, for every delimiter and
    every normalizer: values that normalize to the empty string join to
    the empty string; one value with non-empty normalization placed
    anywhere among them joins to exactly that normalized value; and in any
    list a run of such blank values, be it first, last or in the middle,
    can be deleted without changing the output, so it contributes neither
    a leading, a trailing nor a doubled delimiter.  Whitespace-only strings
    are blank for all three normalizers, and [textJoin] is the same join
    with [clean]. *)
Theorem textJoinWith_skip_blank (delimiter : jsstring)
  (cleaner : value -> jsstring) (blanks1 blanks2 : list value) :
  Forall (fun v => cleaner v = []) blanks1 ->
  Forall (fun v => cleaner v = []) blanks2 ->
  textJoinWith delimiter (blanks1 ++ blanks2) cleaner = []
  /\ (forall x, cleaner x <> [] ->
        textJoinWith delimiter (blanks1 ++ x :: blanks2) cleaner = cleaner x)
  /\ (forall before after,
        textJoinWith delimiter (before ++ blanks1 ++ after) cleaner
        = textJoinWith delimiter (before ++ after) cleaner)
  /\ (forall parts, textJoin delimiter parts
                    = textJoinWith delimiter parts clean)
  /\ (forall s, Forall (fun c => isWhiteSpace c = true) s ->
        clean (VString s) = []
        /\ cleanAdSetVideo (VString s) = []
        /\ cleanAdSetStatic (VString s) = []).
Proof.
  intros H1 H2.
  pose proof (survivors_blank cleaner blanks1 H1) as E1.
  pose proof (survivors_blank cleaner blanks2 H2) as E2.
  unfold textJoinWith. fold (survivors cleaner).
  repeat split.
  - fold (survivors cleaner (blanks1 ++ blanks2)).
    rewrite survivors_app, E1, E2. reflexivity.
  - intros x Hx. fold (survivors cleaner (blanks1 ++ x :: blanks2)).
    change (x :: blanks2) with ([x] ++ blanks2).
    rewrite !survivors_app, E1, E2, (survivors_keep cleaner x Hx).
    reflexivity.
  - intros before after.
    fold (survivors cleaner (before ++ blanks1 ++ after)).
    fold (survivors cleaner (before ++ after)).
    rewrite !survivors_app, E1. reflexivity.
  - simpl. rewrite replaceAllUnit_delete.
    unfold trim. rewrite trimStart_all_ws; [reflexivity|].
    apply Forall_forall. intros c Hc. apply filter_In in Hc.
    rewrite Forall_forall in H. apply H, Hc.
  - unfold cleanAdSetVideo. simpl. rewrite replaceAllUnit_delete.
    unfold trim. rewrite trimStart_all_ws; [reflexivity|].
    apply Forall_forall. intros c Hc. apply filter_In in Hc.
    rewrite Forall_forall in H. apply H, Hc.
  - unfold cleanAdSetStatic. simpl. rewrite replaceAllUnit_delete.
    unfold trim. rewrite trimStart_all_ws; [reflexivity|].
    apply Forall_forall. intros c Hc. apply filter_In in Hc.
    rewrite Forall_forall in H. apply H, Hc.
Qed.

Lemma textJoinWith_skip_blank_witness :
  textJoinWith (str "_")
    ([VString (str "  "); VUndefined] ++ VString (str " a, b ") :: [VString []])
    cleanAdSetStatic
  = str "a-b".
Proof.
  apply (textJoinWith_skip_blank (str "_") cleanAdSetStatic
           [VString (str "  "); VUndefined] [VString []]).
  - repeat constructor.
  - repeat constructor.
  - vm_compute. discriminate.
Defined.

(** ** The final pass of the ad-level string *)

(** Induction that peels one or two code units, as the scan does. *)
Lemma jsstring_ind2 (P : jsstring -> Prop) :
  P [] ->
  (forall c, P [c]) ->
  (forall c d r, P r -> P (d :: r) -> P (c :: d :: r)) ->
  forall s, P s.
Proof.
  intros H0 H1 H2 s.
  assert (H : P s /\ forall c, P (c :: s)).
  { induction s as [|d r [IHr IHc]].
    - split; [exact H0 | exact H1].
    - split; [apply IHc|]. intros c. apply H2; [exact IHr | apply IHc]. }
  apply H.
Qed.

Lemma comma_not_whitespace (c : codeunit) :
  (c =? COMMA) = true -> isWhiteSpace c = false.
Proof. intros H. apply N.eqb_eq in H. subst c. reflexivity. Qed.

(** The first code unit of the output is the first of the input, or the
    dash of a match that starts there. *)
Lemma substitute_head (d : codeunit) (r : jsstring) :
  exists t,
    substituteCommaSpaceToDash (d :: r) = d :: t
    \/ substituteCommaSpaceToDash (d :: r) = DASH :: t.
Proof.
  destruct r as [|e r]; simpl.
  - exists []. left. reflexivity.
  - destruct ((d =? COMMA) && isWhiteSpace e); eexists; [right | left];
      reflexivity.
Qed.

Lemma hasCommaThen_cons (w : codeunit -> bool) (c d : codeunit) (r : jsstring) :
  hasCommaThen w (c :: d :: r)
  = ((c =? COMMA) && w d) || hasCommaThen w (d :: r).
Proof. reflexivity. Qed.

Lemma hasCommaThen_tail (w : codeunit -> bool) (c : codeunit) (r : jsstring) :
  hasCommaThen w (c :: r) = false -> hasCommaThen w r = false.
Proof.
  destruct r as [|d r]; [reflexivity|].
  rewrite hasCommaThen_cons. intros H.
  apply orb_false_iff in H. apply H.
Qed.

Lemma substitute_no_comma_space (s : jsstring) :
  hasCommaThen (fun d => d =? SPACE) (substituteCommaSpaceToDash s) = false.
Proof.
  induction s as [| c | c d r IHr IHd] using jsstring_ind2;
    try reflexivity.
  change (substituteCommaSpaceToDash (c :: d :: r))
    with (if (c =? COMMA) && isWhiteSpace d
          then DASH :: substituteCommaSpaceToDash r
          else c :: substituteCommaSpaceToDash (d :: r)).
  destruct ((c =? COMMA) && isWhiteSpace d) eqn:E.
  - destruct (substituteCommaSpaceToDash r) as [|e t] eqn:Er; [reflexivity|].
    rewrite hasCommaThen_cons, IHr. reflexivity.
  - destruct (substitute_head d r) as [t [Ht|Ht]]; rewrite Ht in *;
      rewrite hasCommaThen_cons, IHd, orb_false_r.
    + destruct (c =? COMMA) eqn:Ec; [|reflexivity]. simpl in *.
      destruct (d =? SPACE) eqn:Ed; [|reflexivity].
      apply space_is_whitespace in Ed. congruence.
    + rewrite andb_false_r. reflexivity.
Qed.

Lemma hasCommaThen_spec (s : jsstring) :
  hasCommaThen (fun d => d =? SPACE) s = true <-> ContainsCommaSpace s.
Proof.
  unfold ContainsCommaSpace. split.
  - induction s as [|c s IH]; [discriminate|].
    destruct s as [|d r]; [discriminate|].
    rewrite hasCommaThen_cons. intros H. apply orb_true_iff in H.
    destruct H as [H|H].
    + apply andb_true_iff in H. destruct H as [Hc Hd].
      apply N.eqb_eq in Hc, Hd. subst. exists [], r. reflexivity.
    + destruct (IH H) as [l [r' E]]. exists (c :: l), r'.
      simpl. rewrite E. reflexivity.
  - intros [l [r E]]. subst s.
    induction l as [|c l IH]; [reflexivity|].
    simpl app. destruct (l ++ COMMA :: SPACE :: r) as [|d t] eqn:El.
    + destruct l; discriminate.
    + rewrite hasCommaThen_cons, IH. apply orb_true_r.
Qed.

(** Every match is replaced, wherever it lies: a comma that a whitespace
    code unit follows always starts a match. *)
Lemma substitute_at_match (l r : jsstring) (w : codeunit) :
  isWhiteSpace w = true ->
  substituteCommaSpaceToDash (l ++ COMMA :: w :: r)
  = substituteCommaSpaceToDash l ++ DASH :: substituteCommaSpaceToDash r.
Proof.
  intros Hw.
  induction l as [| c | c d l IHl IHd] using jsstring_ind2.
  - simpl. rewrite Hw. reflexivity.
  - simpl. rewrite Hw. simpl. rewrite andb_false_r. reflexivity.
  - change (substituteCommaSpaceToDash ((c :: d :: l) ++ COMMA :: w :: r))
      with (if (c =? COMMA) && isWhiteSpace d
            then DASH :: substituteCommaSpaceToDash (l ++ COMMA :: w :: r)
            else c :: substituteCommaSpaceToDash ((d :: l) ++ COMMA :: w :: r)).
    change (substituteCommaSpaceToDash (c :: d :: l))
      with (if (c =? COMMA) && isWhiteSpace d
            then DASH :: substituteCommaSpaceToDash l
            else c :: substituteCommaSpaceToDash (d :: l)).
    destruct ((c =? COMMA) && isWhiteSpace d).
    + rewrite IHl. reflexivity.
    + rewrite IHd. reflexivity.
Qed.

(** Where there is no match, nothing changes. *)
Lemma substitute_no_match (s : jsstring) :
  hasCommaThen isWhiteSpace s = false -> substituteCommaSpaceToDash s = s.
Proof.
  induction s as [| c | c d r IHr IHd] using jsstring_ind2;
    try reflexivity.
  rewrite hasCommaThen_cons. intros H. apply orb_false_iff in H.
  destruct H as [Hm Hd].
  change (substituteCommaSpaceToDash (c :: d :: r))
    with (if (c =? COMMA) && isWhiteSpace d
          then DASH :: substituteCommaSpaceToDash r
          else c :: substituteCommaSpaceToDash (d :: r)).
  rewrite Hm, (IHd Hd). reflexivity.
Qed.

(** Where whitespace after a comma is always U+0020, the pass is the
    literal replacement of the specification. *)
Lemma substitute_literal (s : jsstring) :
  hasCommaThen (fun d => isWhiteSpace d && negb (d =? SPACE)) s = false ->
  substituteCommaSpaceToDash s = substituteLiteral_spec s.
Proof.
  induction s as [| c | c d r IHr IHd] using jsstring_ind2;
    try reflexivity.
  intros H. pose proof (hasCommaThen_tail _ _ _ H) as Hd.
  pose proof (hasCommaThen_tail _ _ _ Hd) as Hr.
  rewrite hasCommaThen_cons in H. apply orb_false_iff in H.
  destruct H as [Hm _].
  change (substituteCommaSpaceToDash (c :: d :: r))
    with (if (c =? COMMA) && isWhiteSpace d
          then DASH :: substituteCommaSpaceToDash r
          else c :: substituteCommaSpaceToDash (d :: r)).
  change (substituteLiteral_spec (c :: d :: r))
    with (if (c =? COMMA) && (d =? SPACE)
          then DASH :: substituteLiteral_spec r
          else c :: substituteLiteral_spec (d :: r)).
  rewrite (IHr Hr), (IHd Hd).
  destruct (c =? COMMA); [|reflexivity]. simpl in *.
  destruct (d =? SPACE) eqn:Ed.
  - rewrite (space_is_whitespace d Ed). reflexivity.
  - rewrite andb_true_r in Hm. rewrite Hm. reflexivity.
Qed.

(** The ad level of either generator is the pass over the joined string. *)
Lemma video_adLevel_eq (data : FormData) :
  adLevel (generateVideoOutputs data)
  = substituteCommaSpaceToDash (videoAdLevelRaw data).
Proof. reflexivity. Qed.

Lemma static_adLevel_eq (data : FormData) :
  adLevel (generateStaticOutputs data)
  = substituteCommaSpaceToDash (staticAdLevelRaw data).
Proof. reflexivity. Qed.

(** C6.  Whatever the record, the ad-level string of neither generator
    holds a comma directly followed by U+0020. *)
Theorem adLevel_never_comma_space (data : FormData) :
  ~ ContainsCommaSpace (adLevel (generateVideoOutputs data))
  /\ ~ ContainsCommaSpace (adLevel (generateStaticOutputs data)).
Proof.
  split; intros H; apply hasCommaThen_spec in H.
  - rewrite video_adLevel_eq, substitute_no_comma_space in H. discriminate.
  - rewrite static_adLevel_eq, substitute_no_comma_space in H. discriminate.
Qed.

(** C1, the claim as stated fails: a comma followed by a tab is replaced
    as well, which the literal comma-space replacement leaves alone. *)
Lemma final_pass_not_literal :
  adLevel (generateVideoOutputs commaTabForm) = str "US_a-b"
  /\ substituteLiteral_spec (videoAdLevelRaw commaTabForm)
     = str "US_a," ++ [TAB] ++ str "b"
  /\ adLevel (generateVideoOutputs commaTabForm)
     <> substituteLiteral_spec (videoAdLevelRaw commaTabForm)
  /\ adLevel (generateStaticOutputs commaTabForm)
     <> substituteLiteral_spec (staticAdLevelRaw commaTabForm).
Proof. repeat split; vm_compute; discriminate. Qed.

(** C1, amended.  For every record whose joined ad-level string has no
    comma directly followed by a whitespace code unit other than U+0020,
    the final ad-level string of either generator is the joined string
    with every literal comma-space replaced by a dash, over the whole
    joined string, and nothing else altered. *)
Theorem adLevel_final_pass (data : FormData) :
  (hasCommaThen (fun d => isWhiteSpace d && negb (d =? SPACE))
     (videoAdLevelRaw data) = false ->
   adLevel (generateVideoOutputs data)
   = substituteLiteral_spec (videoAdLevelRaw data))
  /\ (hasCommaThen (fun d => isWhiteSpace d && negb (d =? SPACE))
        (staticAdLevelRaw data) = false ->
      adLevel (generateStaticOutputs data)
      = substituteLiteral_spec (staticAdLevelRaw data)).
Proof.
  split; intros H.
  - rewrite video_adLevel_eq. apply substitute_literal, H.
  - rewrite static_adLevel_eq. apply substitute_literal, H.
Qed.

Lemma adLevel_final_pass_witness :
  adLevel (generateVideoOutputs commaSpaceForm) = str "US_T-Fear-Urgency"
  /\ adLevel (generateStaticOutputs commaSpaceForm) = str "US_T-Fear-Urgency".
Proof.
  split.
  - rewrite (proj1 (adLevel_final_pass commaSpaceForm)); reflexivity.
  - rewrite (proj2 (adLevel_final_pass commaSpaceForm)); reflexivity.
Defined.

(** C10.  In the final pass of both generators a comma followed by any
    one whitespace code unit of the class [\s] (U+0020, but also tab, line
    feed, U+3000 and the others) becomes one dash and the whitespace code
    unit is gone, wherever in the joined string the pair lies; a record
    whose ad text code holds comma-tab shows it. *)
Theorem final_pass_any_whitespace :
  (forall data l w r,
      isWhiteSpace w = true ->
      videoAdLevelRaw data = l ++ COMMA :: w :: r ->
      adLevel (generateVideoOutputs data)
      = substituteCommaSpaceToDash l ++ DASH :: substituteCommaSpaceToDash r)
  /\ (forall data l w r,
        isWhiteSpace w = true ->
        staticAdLevelRaw data = l ++ COMMA :: w :: r ->
        adLevel (generateStaticOutputs data)
        = substituteCommaSpaceToDash l ++ DASH :: substituteCommaSpaceToDash r)
  /\ (isWhiteSpace SPACE = true /\ isWhiteSpace TAB = true
      /\ isWhiteSpace 10 = true /\ isWhiteSpace 13 = true
      /\ isWhiteSpace 0x3000 = true)
  /\ (adTextCode commaTabForm = [97; COMMA; TAB; 98]
      /\ videoAdLevelRaw commaTabForm = str "US_a" ++ COMMA :: TAB :: str "b"
      /\ adLevel (generateVideoOutputs commaTabForm) = str "US_a-b"
      /\ adLevel (generateStaticOutputs commaTabForm) = str "US_a-b").
Proof.
  repeat split.
  - intros data l w r Hw E. rewrite video_adLevel_eq, E.
    apply substitute_at_match, Hw.
  - intros data l w r Hw E. rewrite static_adLevel_eq, E.
    apply substitute_at_match, Hw.
Qed.

Lemma final_pass_any_whitespace_witness :
  adLevel (generateVideoOutputs commaTabForm)
  = substituteCommaSpaceToDash (str "US_a")
    ++ DASH :: substituteCommaSpaceToDash (str "b").
Proof.
  apply (proj1 final_pass_any_whitespace commaTabForm (str "US_a") TAB (str "b"));
    reflexivity.
Defined.

(** ** The video ad set *)

Lemma video_adSet_eq (data : FormData) :
  adSet (generateVideoOutputs data)
  = textJoinWith (str "_") (videoAdSetParts data) cleanAdSetVideo.
Proof. reflexivity. Qed.

Lemma videoAdSetParts_withExcluded (data : FormData)
  (sound' variant' adTextCode' : jsstring) :
  videoAdSetParts (withExcluded data sound' variant' adTextCode')
  = videoAdSetParts data.
Proof. reflexivity. Qed.

(** C2.  The ad set of the video generator is the join by an underscore,
    through the video ad-set normalizer and skipping what normalizes to
    the empty string, of these 21 values in this order: account,
    productGeo, trial, conceptId, assetId, focus, theme, shortConceptDesc,
    seq, title, intro, testVariable, testDesc, the NCON token, age,
    ethnicity, ratio, style, graphic, productCode, projectCode.  The fields
    sound, variant and adTextCode have no part in it.  With account US,
    productGeo USA, trial T1, the other fields of the list empty and the
    flag off, the ad set is US_USA_T1. *)
Theorem video_adSet_fields (data : FormData) :
  adSet (generateVideoOutputs data)
  = join (str "_")
      (filter nonEmpty
         (map (fun s => cleanAdSetVideo (VString s))
            [ account data; productGeo data; trial data; conceptId data;
              assetId data; focus data; theme data; shortConceptDesc data;
              seq data; title data; intro data; testVariable data;
              testDesc data; (if ncon data then str "NCON" else []);
              age data; ethnicity data; ratio data; style data;
              graphic data; productCode data; projectCode data ]))
  /\ (forall sound' variant' adTextCode',
        adSet (generateVideoOutputs
                 (withExcluded data sound' variant' adTextCode'))
        = adSet (generateVideoOutputs data))
  /\ adSet (generateVideoOutputs (scenarioForm data)) = str "US_USA_T1".
Proof.
  split; [reflexivity|]. split.
  - intros sound' variant' adTextCode'.
    rewrite !video_adSet_eq, videoAdSetParts_withExcluded. reflexivity.
  - vm_compute. reflexivity.
Qed.

Example video_adSet_strips_spaces :
  adSet (generateVideoOutputs
           (withExcluded (scenarioForm emptyForm) (str "Loud") (str "a")
              (str "h2p2")))
  = str "US_USA_T1".
Proof. vm_compute. reflexivity. Qed.

(** ** Segments of the ad level *)

Lemma Normalized_prefix (pre y : jsstring) :
  Avoids CLEAN_RE pre -> noLeadWs pre -> pre <> [] ->
  Normalized y -> y <> [] ->
  Normalized (pre ++ y).
Proof.
  intros Ha Hl Hne [Hya [_ Hyr]] Hy. split; [|split].
  - apply Avoids_app. split; assumption.
  - destruct pre as [|c pre]; [congruence|]. exact Hl.
  - rewrite rev_app_distr. destruct (rev y) as [|c t] eqn:E.
    + apply (f_equal (@rev codeunit)) in E. rewrite rev_involutive in E.
      simpl in E. congruence.
    + exact Hyr.
Qed.

Lemma clean_tagged (tag : string) (x : jsstring) :
  plainTag tag -> clean (VString (tagged tag x)) = tagged tag x.
Proof.
  intros [Ha [Hl Hne]]. unfold tagged.
  destruct (clean (VString x)) as [|c t] eqn:E; [reflexivity|].
  cbn [truthy]. apply Normalized_clean.
  apply Normalized_prefix; try assumption; [|discriminate].
  rewrite <- E. apply clean_Normalized.
Qed.

Lemma plainTag_T : plainTag "T-".
Proof. repeat split; try (repeat constructor); discriminate. Qed.

Lemma plainTag_V : plainTag "V-".
Proof. repeat split; try (repeat constructor); discriminate. Qed.

Lemma nonEmpty_app_cons (a : jsstring) (c : codeunit) (p : jsstring) :
  nonEmpty (a ++ c :: p) = true.
Proof. destruct a; reflexivity. Qed.

(** A two-part segment: what [textJoin] makes of the tagged primary
    field and the raw secondary field. *)
Lemma textJoin_segment (tag : string) (primary secondary : jsstring) :
  plainTag tag ->
  textJoin (str "-") [VString (tagged tag primary); VString secondary]
  = segment_spec tag (clean (VString primary)) (clean (VString secondary)).
Proof.
  intros Ht. unfold textJoin. cbn [map].
  rewrite (clean_tagged tag primary Ht). unfold tagged, segment_spec.
  destruct (clean (VString primary)) as [|c p];
    destruct (clean (VString secondary)) as [|e s]; cbn [truthy filter];
    try reflexivity; rewrite nonEmpty_app_cons; cbn; try reflexivity.
  rewrite <- app_assoc. reflexivity.
Qed.

(** C3.  In the video ad level the T-segment is the dash join of T-
    followed by the normalized hook theme, present only when that is not
    empty, and the normalized hook description, skipping an empty half;
    it is empty when both are.  The V-segment is the same over visual
    theme and visual object.  The A-segment is A- followed by the
    normalized sound when that is not empty, and empty otherwise.  The
    scenario record gives T-Fear-Urgency, ProductShot and the empty
    string. *)
Theorem video_segments (data : FormData) :
  videoTPart data
  = segment_spec "T-" (clean (VString (hookTheme data)))
      (clean (VString (hookDesc data)))
  /\ videoVPart data
     = segment_spec "V-" (clean (VString (visualTheme data)))
         (clean (VString (visualObject data)))
  /\ videoAPart data
     = (if nonEmpty (clean (VString (sound data)))
        then str "A-" ++ clean (VString (sound data)) else [])
  /\ (clean (VString (hookTheme data)) = [] ->
      clean (VString (hookDesc data)) = [] -> videoTPart data = [])
  /\ (videoTPart segmentForm = str "T-Fear-Urgency"
      /\ videoVPart segmentForm = str "ProductShot"
      /\ videoAPart segmentForm = []).
Proof.
  split; [unfold videoTPart; apply textJoin_segment, plainTag_T|].
  split; [unfold videoVPart; apply textJoin_segment, plainTag_V|].
  split; [reflexivity|].
  split; [|repeat split; vm_compute; reflexivity].
  intros H1 H2. unfold videoTPart.
  rewrite (textJoin_segment _ _ _ plainTag_T), H1, H2. reflexivity.
Qed.

Lemma video_segments_witness : videoTPart emptyForm = [].
Proof.
  apply (proj1 (proj2 (proj2 (proj2 (video_segments emptyForm)))));
    vm_compute; reflexivity.
Defined.

(** The composed segments are what the ad-level join receives. *)
Example video_adLevel_segments :
  adLevel (generateVideoOutputs segmentForm)
  = str "T-Fear-Urgency_ProductShot".
Proof. vm_compute. reflexivity. Qed.

(** ** The static ad set *)

Lemma static_adSet_eq (data : FormData) :
  adSet (generateStaticOutputs data)
  = textJoinWith (str "_") (staticAdSetParts data) cleanAdSetStatic.
Proof. reflexivity. Qed.

(** The 26 slots: columns A..M, four placeholders, columns R..Y, one
    placeholder. *)
Lemma staticAdSetParts_split (data : FormData) :
  staticAdSetParts data
  = firstn 13 (staticAdSetParts_spec data)
    ++ repeat (VString []) 4
    ++ skipn 13 (staticAdSetParts_spec data)
    ++ [VString []].
Proof. reflexivity. Qed.

(** C9.  The static ad set built from the 26-slot list, placeholders
    included, is the same string as the join of the list with the empty
    placeholder slots deleted. *)
Theorem static_adSet_placeholders (data : FormData) :
  adSet (generateStaticOutputs data)
  = textJoinWith (str "_") (staticAdSetParts_spec data) cleanAdSetStatic
  /\ List.length (staticAdSetParts data) = 26%nat
  /\ List.length (staticAdSetParts_spec data) = 21%nat.
Proof.
  split; [|split; reflexivity].
  rewrite static_adSet_eq, !textJoinWith_survivors, staticAdSetParts_split.
  rewrite !survivors_app.
  rewrite (survivors_blank cleanAdSetStatic (repeat (VString []) 4))
    by (repeat constructor).
  rewrite (survivors_blank cleanAdSetStatic [VString []])
    by (repeat constructor).
  rewrite app_nil_r. cbn [app].
  rewrite <- survivors_app, firstn_skipn. reflexivity.
Qed.

(** ** The helpers over the store of the shared regular expression *)

Section StatefulRuns.

Local Open Scope nat_scope.

Lemma findIndex_Some (p : codeunit -> bool) (s : jsstring) (j : nat) :
  Stateful.findIndex p s = Some j ->
  exists a c b,
    s = a ++ c :: b /\ List.length a = j /\ Avoids p a /\ p c = true.
Proof.
  revert j. induction s as [|c s IH]; simpl; intros j H; [discriminate|].
  destruct (p c) eqn:E.
  - injection H as <-. exists [], c, s. repeat split; [constructor | exact E].
  - destruct (Stateful.findIndex p s) as [k|]; [|discriminate].
    injection H as <-.
    destruct (IH k eq_refl) as [a [e [b [Hs [Hl [Ha He]]]]]].
    exists (c :: a), e, b. subst s. simpl. repeat split.
    + f_equal. exact Hl.
    + constructor; assumption.
    + exact He.
Qed.

Lemma findIndex_None (p : codeunit -> bool) (s : jsstring) :
  Stateful.findIndex p s = None -> Avoids p s.
Proof.
  induction s as [|c s IH]; simpl; intros H; [constructor|].
  destruct (p c) eqn:E; [discriminate|].
  destruct (Stateful.findIndex p s); [discriminate|].
  constructor; [exact E | apply IH; reflexivity].
Qed.

Lemma exec_found (s : jsstring) (i j : nat) :
  i <= List.length s ->
  Stateful.findIndex CLEAN_RE (skipn i s) = Some j ->
  Stateful.exec s {| Stateful.lastIndex := i |}
  = Some (Some (i + j), {| Stateful.lastIndex := i + j + 1 |}).
Proof.
  intros Hi Hf. unfold Stateful.exec, Stateful.bind, Stateful.getLastIndex.
  simpl. destruct (Nat.ltb_spec (List.length s) i) as [H|_]; [lia|].
  rewrite Hf. reflexivity.
Qed.

Lemma exec_not_found (s : jsstring) (i : nat) :
  i <= List.length s ->
  Stateful.findIndex CLEAN_RE (skipn i s) = None ->
  Stateful.exec s {| Stateful.lastIndex := i |}
  = Some (None, {| Stateful.lastIndex := 0 |}).
Proof.
  intros Hi Hf. unfold Stateful.exec, Stateful.bind, Stateful.getLastIndex.
  simpl. destruct (Nat.ltb_spec (List.length s) i) as [H|_]; [lia|].
  rewrite Hf. reflexivity.
Qed.

(** With fuel beyond the number of code units left, the loop of matches
    ends by a failed match, leaves [lastIndex] at 0, and the pieces it
    marks are the string without its [CLEAN_RE] code units. *)
Lemma matchAll_enough_fuel (fuel : nat) (s : jsstring) (i : nat) :
  i <= List.length s ->
  List.length s - i < fuel ->
  exists ks,
    Stateful.matchAll fuel s {| Stateful.lastIndex := i |}
    = Some (ks, {| Stateful.lastIndex := 0 |})
    /\ Stateful.accumulate s [] i ks
       = replaceAllUnit CLEAN_RE [] (skipn i s).
Proof.
  revert i. induction fuel as [|fuel IH]; intros i Hi Hf; [lia|].
  cbn [Stateful.matchAll]. unfold Stateful.bind at 1.
  destruct (Stateful.findIndex CLEAN_RE (skipn i s)) as [j|] eqn:E.
  - rewrite (exec_found s i j Hi E).
    destruct (findIndex_Some _ _ _ E) as [a [c [b [Hs [Hl [Ha Hc]]]]]].
    assert (Hlen : List.length s - i = j + S (List.length b)).
    { rewrite <- length_skipn, Hs, length_app. simpl. lia. }
    destruct (IH (i + j + 1)) as [ks [Hks Hacc]]; [lia | lia |].
    exists (i + j :: ks). split.
    + unfold Stateful.bind. rewrite Hks. reflexivity.
    + cbn [Stateful.accumulate].
      destruct (Nat.leb_spec i (i + j)) as [_|H]; [|lia].
      rewrite Hacc. replace (i + j + 1) with (S j + i) by lia.
      rewrite <- skipn_skipn, Hs.
      replace (i + j - i) with (List.length a) by lia.
      rewrite firstn_app, firstn_all, Nat.sub_diag, firstn_0, app_nil_r.
      rewrite <- Hl.
      rewrite skipn_app, skipn_all2 by lia.
      replace (S (List.length a) - List.length a) with 1 by lia.
      cbn [app skipn].
      rewrite replaceAllUnit_app, (replaceAllUnit_Avoids _ _ a Ha).
      cbn [replaceAllUnit]. rewrite Hc. reflexivity.
  - rewrite (exec_not_found s i Hi E).
    exists []. split; [reflexivity|]. simpl.
    symmetry. apply replaceAllUnit_Avoids, findIndex_None, E.
Qed.

(** [s.replace(CLEAN_RE, '')] has a result from every store, the same
    one. *)
Lemma replaceCleanRe_run (s : jsstring) (st : Stateful.Store) :
  Stateful.replaceCleanRe s st
  = Some (replaceAllUnit CLEAN_RE [] s, {| Stateful.lastIndex := 0 |}).
Proof.
  unfold Stateful.replaceCleanRe, Stateful.bind, Stateful.setLastIndex.
  destruct (matchAll_enough_fuel (S (List.length s)) s 0) as [ks [Hk Ha]];
    [lia | lia |].
  rewrite Hk. unfold Stateful.ret. rewrite Ha. reflexivity.
Qed.

Lemma Returns_ret {A : Type} (a : A) : Stateful.Returns (Stateful.ret a) a.
Proof. intros st. exists st. reflexivity. Qed.

Lemma Returns_bind {A B : Type} (m : Stateful.M A) (f : A -> Stateful.M B)
  (a : A) (b : B) :
  Stateful.Returns m a -> Stateful.Returns (f a) b ->
  Stateful.Returns (Stateful.bind m f) b.
Proof.
  intros Hm Hf st. destruct (Hm st) as [st1 E1].
  destruct (Hf st1) as [st2 E2]. exists st2.
  unfold Stateful.bind. rewrite E1. exact E2.
Qed.

Lemma Returns_mapM {A B : Type} (f : A -> Stateful.M B) (g : A -> B)
  (l : list A) :
  (forall a, Stateful.Returns (f a) (g a)) ->
  Stateful.Returns (Stateful.mapM f l) (map g l).
Proof.
  intros H. induction l as [|a l IH]; simpl; [apply Returns_ret|].
  eapply Returns_bind; [apply H|].
  eapply Returns_bind; [apply IH|]. apply Returns_ret.
Qed.

Lemma Returns_outputOf {A : Type} (m : Stateful.M A) (a : A)
  (st : Stateful.Store) :
  Stateful.Returns m a -> Stateful.outputOf m st = Some a.
Proof.
  intros H. destruct (H st) as [st' E].
  unfold Stateful.outputOf. rewrite E. reflexivity.
Qed.

Lemma clean_Returns (v : value) :
  Stateful.Returns (Stateful.clean v) (clean v).
Proof.
  destruct v; try apply Returns_ret.
  simpl. eapply Returns_bind; [|apply Returns_ret].
  intros st. eexists. apply replaceCleanRe_run.
Qed.

Lemma cleanAdSetVideo_Returns (v : value) :
  Stateful.Returns (Stateful.cleanAdSetVideo v) (cleanAdSetVideo v).
Proof.
  eapply Returns_bind; [apply clean_Returns | apply Returns_ret].
Qed.

Lemma cleanAdSetStatic_Returns (v : value) :
  Stateful.Returns (Stateful.cleanAdSetStatic v) (cleanAdSetStatic v).
Proof.
  eapply Returns_bind; [apply clean_Returns | apply Returns_ret].
Qed.

Lemma textJoin_Returns (delimiter : jsstring) (parts : list value) :
  Stateful.Returns (Stateful.textJoin delimiter parts)
    (textJoin delimiter parts).
Proof.
  eapply Returns_bind; [apply Returns_mapM, clean_Returns|].
  apply Returns_ret.
Qed.

Lemma textJoinWith_Returns (delimiter : jsstring) (parts : list value)
  (cleanerM : value -> Stateful.M jsstring) (cleaner : value -> jsstring) :
  (forall v, Stateful.Returns (cleanerM v) (cleaner v)) ->
  Stateful.Returns (Stateful.textJoinWith delimiter parts cleanerM)
    (textJoinWith delimiter parts cleaner).
Proof.
  intros H. eapply Returns_bind; [apply Returns_mapM, H|].
  apply Returns_ret.
Qed.

Lemma projectCodeVariant_Returns (data : FormData) :
  Stateful.Returns (Stateful.projectCodeVariant data)
    (projectCodeVariant data).
Proof.
  unfold Stateful.projectCodeVariant, projectCodeVariant.
  destruct (truthy (variant data)); [|apply clean_Returns].
  eapply Returns_bind; [apply clean_Returns|].
  eapply Returns_bind; [apply clean_Returns|]. apply Returns_ret.
Qed.

Lemma tagged_Returns (tag : string) (x : jsstring) :
  Stateful.Returns (Stateful.tagged tag x) (tagged tag x).
Proof.
  unfold Stateful.tagged, tagged.
  eapply Returns_bind; [apply clean_Returns|].
  destruct (truthy (clean (VString x))); [|apply Returns_ret].
  eapply Returns_bind; [apply clean_Returns | apply Returns_ret].
Qed.

Lemma segment_Returns (tag : string) (primary secondary : jsstring) :
  Stateful.Returns (Stateful.segment tag primary secondary)
    (textJoin (str "-") [VString (tagged tag primary); VString secondary]).
Proof.
  eapply Returns_bind; [apply tagged_Returns | apply textJoin_Returns].
Qed.

(** Each local constant of the generators, run over the store, returns
    the pure piece of the same name. *)
Lemma videoSPart_Returns (data : FormData) :
  Stateful.Returns (Stateful.tagged "S-" (seqDesc data)) (videoSPart data).
Proof. unfold videoSPart. apply tagged_Returns. Qed.

Lemma videoTPart_Returns (data : FormData) :
  Stateful.Returns (Stateful.segment "T-" (hookTheme data) (hookDesc data))
    (videoTPart data).
Proof. unfold videoTPart. apply segment_Returns. Qed.

Lemma videoVPart_Returns (data : FormData) :
  Stateful.Returns
    (Stateful.segment "V-" (visualTheme data) (visualObject data))
    (videoVPart data).
Proof. unfold videoVPart. apply segment_Returns. Qed.

Lemma videoAPart_Returns (data : FormData) :
  Stateful.Returns (Stateful.tagged "A-" (sound data)) (videoAPart data).
Proof. unfold videoAPart. apply tagged_Returns. Qed.

Lemma videoAdLevelRaw_Returns (data : FormData) :
  Stateful.Returns
    (Stateful.textJoin (str "_")
       (videoAdLevelList data (videoSPart data) (videoTPart data)
          (videoVPart data) (videoAPart data) (projectCodeVariant data)))
    (videoAdLevelRaw data).
Proof. unfold videoAdLevelRaw, videoAdLevelParts. apply textJoin_Returns. Qed.

Lemma generateVideoOutputs_Returns (data : FormData) :
  Stateful.Returns (Stateful.generateVideoOutputs data)
    (generateVideoOutputs data).
Proof.
  unfold Stateful.generateVideoOutputs, generateVideoOutputs.
  eapply Returns_bind; [apply projectCodeVariant_Returns|].
  eapply Returns_bind;
    [apply textJoinWith_Returns, cleanAdSetVideo_Returns|].
  eapply Returns_bind; [apply videoSPart_Returns|].
  eapply Returns_bind; [apply videoTPart_Returns|].
  eapply Returns_bind; [apply videoVPart_Returns|].
  eapply Returns_bind; [apply videoAPart_Returns|].
  eapply Returns_bind; [apply videoAdLevelRaw_Returns|].
  apply Returns_ret.
Qed.

Lemma staticSPart_Returns (data : FormData) :
  Stateful.Returns (Stateful.tagged "S-" (carouselDesc data))
    (staticSPart data).
Proof. unfold staticSPart. apply tagged_Returns. Qed.

Lemma staticTPart_Returns (data : FormData) :
  Stateful.Returns (Stateful.segment "T-" (hookTheme data) (titleDesc data))
    (staticTPart data).
Proof. unfold staticTPart. apply segment_Returns. Qed.

Lemma staticVPart_Returns (data : FormData) :
  Stateful.Returns
    (Stateful.segment "V-" (visualTheme data) (visualObject data))
    (staticVPart data).
Proof. unfold staticVPart. apply segment_Returns. Qed.

Lemma staticAPart_Returns (data : FormData) :
  Stateful.Returns (Stateful.tagged "A-" (visualIdentifier data))
    (staticAPart data).
Proof. unfold staticAPart. apply tagged_Returns. Qed.

Lemma staticAdLevelRaw_Returns (data : FormData) :
  Stateful.Returns
    (Stateful.textJoin (str "_")
       (staticAdLevelList data (staticSPart data) (staticTPart data)
          (staticVPart data) (staticAPart data) (projectCodeVariant data)))
    (staticAdLevelRaw data).
Proof.
  unfold staticAdLevelRaw, staticAdLevelParts. apply textJoin_Returns.
Qed.

Lemma generateStaticOutputs_Returns (data : FormData) :
  Stateful.Returns (Stateful.generateStaticOutputs data)
    (generateStaticOutputs data).
Proof.
  unfold Stateful.generateStaticOutputs, generateStaticOutputs.
  eapply Returns_bind; [apply projectCodeVariant_Returns|].
  eapply Returns_bind;
    [apply textJoinWith_Returns, cleanAdSetStatic_Returns|].
  eapply Returns_bind; [apply staticSPart_Returns|].
  eapply Returns_bind; [apply staticTPart_Returns|].
  eapply Returns_bind; [apply staticVPart_Returns|].
  eapply Returns_bind; [apply staticAPart_Returns|].
  eapply Returns_bind; [apply staticAdLevelRaw_Returns|].
  apply Returns_ret.
Qed.

End StatefulRuns.

(** C8.  Both generators are deterministic: run on the same record from
    any two states of the shared regular expression, each gives a result,
    the same pair of strings both times, which is the value of the pure
    function of the record; nothing but the record enters the result. *)
Theorem generators_deterministic (data : FormData)
  (st1 st2 : Stateful.Store) :
  Stateful.outputOf (Stateful.generateVideoOutputs data) st1
  = Some (generateVideoOutputs data)
  /\ Stateful.outputOf (Stateful.generateVideoOutputs data) st1
     = Stateful.outputOf (Stateful.generateVideoOutputs data) st2
  /\ Stateful.outputOf (Stateful.generateStaticOutputs data) st1
     = Some (generateStaticOutputs data)
  /\ Stateful.outputOf (Stateful.generateStaticOutputs data) st1
     = Stateful.outputOf (Stateful.generateStaticOutputs data) st2.
Proof.
  pose proof (Returns_outputOf _ _ st1 (generateVideoOutputs_Returns data))
    as Hv1.
  pose proof (Returns_outputOf _ _ st2 (generateVideoOutputs_Returns data))
    as Hv2.
  pose proof (Returns_outputOf _ _ st1 (generateStaticOutputs_Returns data))
    as Hs1.
  pose proof (Returns_outputOf _ _ st2 (generateStaticOutputs_Returns data))
    as Hs2.
  split; [exact Hv1|].
  split; [exact (eq_trans Hv1 (eq_sym Hv2))|].
  split; [exact Hs1|].
  exact (eq_trans Hs1 (eq_sym Hs2)).
Qed.

Example stateful_video_run :
  Stateful.outputOf (Stateful.generateVideoOutputs segmentForm)
    {| Stateful.lastIndex := 7 |}
  = Some {| adSet := []; adLevel := str "T-Fear-Urgency_ProductShot" |}.
Proof. vm_compute. reflexivity. Qed.

(** ** What the output strings never hold *)

Lemma join_Avoids (p : codeunit -> bool) (delimiter : jsstring)
  (parts : list jsstring) :
  Avoids p delimiter -> Forall (Avoids p) parts ->
  Avoids p (join delimiter parts).
Proof.
  intros Hd. induction 1 as [|x l Hx Hl IH]; [constructor|].
  destruct l as [|y l]; [exact Hx|].
  change (join delimiter (x :: y :: l))
    with (x ++ delimiter ++ join delimiter (y :: l)).
  apply Avoids_app. split; [exact Hx|].
  apply Avoids_app. split; [exact Hd | exact IH].
Qed.

Lemma survivors_Forall (P : jsstring -> Prop) (cleaner : value -> jsstring)
  (parts : list value) :
  (forall v, P (cleaner v)) -> Forall P (survivors cleaner parts).
Proof.
  intros H. apply Forall_forall. intros s Hs. apply filter_In in Hs.
  destruct Hs as [Hs _]. apply in_map_iff in Hs.
  destruct Hs as [v [<- _]]. apply H.
Qed.

Lemma Avoids_eqb_not_In (u : codeunit) (s : jsstring) :
  Avoids (fun c => c =? u) s <-> ~ In u s.
Proof.
  unfold Avoids. rewrite Forall_forall. split.
  - intros H Hin. specialize (H u Hin). rewrite N.eqb_refl in H. discriminate.
  - intros H c Hc. apply N.eqb_neq. intros ->. apply H, Hc.
Qed.

Lemma substitute_Avoids (p : codeunit -> bool) (s : jsstring) :
  p DASH = false -> Avoids p s -> Avoids p (substituteCommaSpaceToDash s).
Proof.
  intros Hd.
  induction s as [| c | c d r IHr IHd] using jsstring_ind2; intros H.
  - constructor.
  - exact H.
  - change (substituteCommaSpaceToDash (c :: d :: r))
      with (if (c =? COMMA) && isWhiteSpace d
            then DASH :: substituteCommaSpaceToDash r
            else c :: substituteCommaSpaceToDash (d :: r)).
    inversion H as [|? ? Hc Hdr]; subst.
    inversion Hdr as [|? ? _ Hr]; subst.
    destruct ((c =? COMMA) && isWhiteSpace d).
    + constructor; [exact Hd | apply IHr, Hr].
    + constructor; [exact Hc | apply IHd, Hdr].
Qed.

(** X1.  The ad set of either generator holds no U+0020. *)
Theorem adSet_no_space (data : FormData) :
  ~ In SPACE (adSet (generateVideoOutputs data))
  /\ ~ In SPACE (adSet (generateStaticOutputs data)).
Proof.
  split; apply Avoids_eqb_not_In.
  - rewrite video_adSet_eq, textJoinWith_survivors.
    apply join_Avoids; [repeat constructor|].
    apply survivors_Forall. intros v. apply cleanAdSetVideo_VideoSlug.
  - rewrite static_adSet_eq, textJoinWith_survivors.
    apply join_Avoids; [repeat constructor|].
    apply survivors_Forall. intros v. apply cleanAdSetStatic_StaticSlug.
Qed.

(** X2.  The static ad set holds no comma. *)
Theorem static_adSet_no_comma (data : FormData) :
  ~ In COMMA (adSet (generateStaticOutputs data)).
Proof.
  apply Avoids_eqb_not_In.
  rewrite static_adSet_eq, textJoinWith_survivors.
  apply join_Avoids; [repeat constructor|].
  apply survivors_Forall. intros v. apply cleanAdSetStatic_StaticSlug.
Qed.

Lemma textJoin_Avoids_CLEAN_RE (delimiter : jsstring) (parts : list value) :
  Avoids CLEAN_RE delimiter -> Avoids CLEAN_RE (textJoin delimiter parts).
Proof.
  intros Hd. rewrite textJoin_textJoinWith, textJoinWith_survivors.
  apply join_Avoids; [exact Hd|].
  apply survivors_Forall. intros v. apply clean_Normalized.
Qed.

(** X3.  None of the four output strings holds U+00A0, U+200B, U+200D or
    U+2060. *)
Theorem outputs_free_of_CLEAN_RE (data : FormData) :
  Avoids CLEAN_RE (adSet (generateVideoOutputs data))
  /\ Avoids CLEAN_RE (adLevel (generateVideoOutputs data))
  /\ Avoids CLEAN_RE (adSet (generateStaticOutputs data))
  /\ Avoids CLEAN_RE (adLevel (generateStaticOutputs data)).
Proof.
  repeat split.
  - rewrite video_adSet_eq, textJoinWith_survivors.
    apply join_Avoids; [repeat constructor|].
    apply survivors_Forall. intros v. apply cleanAdSetVideo_VideoSlug.
  - rewrite video_adLevel_eq. apply substitute_Avoids; [reflexivity|].
    apply textJoin_Avoids_CLEAN_RE. repeat constructor.
  - rewrite static_adSet_eq, textJoinWith_survivors.
    apply join_Avoids; [repeat constructor|].
    apply survivors_Forall. intros v. apply cleanAdSetStatic_StaticSlug.
  - rewrite static_adLevel_eq. apply substitute_Avoids; [reflexivity|].
    apply textJoin_Avoids_CLEAN_RE. repeat constructor.
Qed.

(** ** The ends of the output strings *)

Lemma join_nonEmpty (delimiter x : jsstring) (rest : list jsstring) :
  x <> [] -> join delimiter (x :: rest) <> [].
Proof.
  intros Hx. destruct rest as [|y l]; [exact Hx|].
  change (join delimiter (x :: y :: l))
    with (x ++ delimiter ++ join delimiter (y :: l)).
  destruct x; [congruence | discriminate].
Qed.

Lemma noLeadWs_app (s t : jsstring) :
  s <> [] -> noLeadWs s -> noLeadWs (s ++ t).
Proof. destruct s; [congruence | intros _ H; exact H]. Qed.

Lemma rev_nonEmpty (s : jsstring) : s <> [] -> rev s <> [].
Proof.
  intros Hs E. apply Hs. rewrite <- (rev_involutive s), E. reflexivity.
Qed.

(** A join of non-empty trimmed strings is trimmed, whatever the
    delimiter. *)
Lemma join_Trimmed (delimiter : jsstring) (parts : list jsstring) :
  Forall (fun s => Trimmed s /\ s <> []) parts ->
  Trimmed (join delimiter parts).
Proof.
  induction 1 as [|x l [[Hx1 Hx2] Hx] Hl IH]; [split; exact I|].
  destruct l as [|y l]; [split; assumption|].
  change (join delimiter (x :: y :: l))
    with (x ++ delimiter ++ join delimiter (y :: l)).
  split.
  - apply noLeadWs_app; assumption.
  - rewrite !rev_app_distr, <- app_assoc.
    apply noLeadWs_app; [|apply IH].
    apply rev_nonEmpty, join_nonEmpty.
    inversion Hl as [|? ? [_ Hy] _]. exact Hy.
Qed.

Lemma survivors_Trimmed (cleaner : value -> jsstring) (parts : list value) :
  (forall v, Trimmed (cleaner v)) ->
  Forall (fun s => Trimmed s /\ s <> []) (survivors cleaner parts).
Proof.
  intros H. apply Forall_forall. intros s Hs. split.
  - apply filter_In in Hs. destruct Hs as [Hs _]. apply in_map_iff in Hs.
    destruct Hs as [v [<- _]]. apply H.
  - pose proof (survivors_nonEmpty cleaner parts) as Hne.
    rewrite Forall_forall in Hne. apply Hne, Hs.
Qed.

(** The pass leaves a last code unit that is not whitespace in place. *)
Lemma substitute_snoc (s : jsstring) (c : codeunit) :
  isWhiteSpace c = false ->
  substituteCommaSpaceToDash (s ++ [c]) = substituteCommaSpaceToDash s ++ [c].
Proof.
  intros Hc. induction s as [| a | a b r IHr IHb] using jsstring_ind2.
  - reflexivity.
  - simpl. rewrite Hc, andb_false_r. reflexivity.
  - change (substituteCommaSpaceToDash ((a :: b :: r) ++ [c]))
      with (if (a =? COMMA) && isWhiteSpace b
            then DASH :: substituteCommaSpaceToDash (r ++ [c])
            else a :: substituteCommaSpaceToDash ((b :: r) ++ [c])).
    change (substituteCommaSpaceToDash (a :: b :: r))
      with (if (a =? COMMA) && isWhiteSpace b
            then DASH :: substituteCommaSpaceToDash r
            else a :: substituteCommaSpaceToDash (b :: r)).
    destruct ((a =? COMMA) && isWhiteSpace b).
    + rewrite IHr. reflexivity.
    + rewrite IHb. reflexivity.
Qed.

Lemma substitute_Trimmed (s : jsstring) :
  Trimmed s -> Trimmed (substituteCommaSpaceToDash s).
Proof.
  intros [H1 H2]. split.
  - destruct s as [|d r]; [exact I|].
    destruct (substitute_head d r) as [t [E|E]]; rewrite E;
      [exact H1 | reflexivity].
  - destruct (rev s) as [|c t] eqn:E.
    + apply (f_equal (@rev codeunit)) in E. rewrite rev_involutive in E.
      subst s. exact I.
    + apply (f_equal (@rev codeunit)) in E. rewrite rev_involutive in E.
      subst s. simpl. simpl in H2.
      rewrite (substitute_snoc _ c H2), rev_app_distr. exact H2.
Qed.

(** X4.  None of the four output strings begins or ends with a whitespace
    code unit. *)
Theorem outputs_Trimmed (data : FormData) :
  Trimmed (adSet (generateVideoOutputs data))
  /\ Trimmed (adLevel (generateVideoOutputs data))
  /\ Trimmed (adSet (generateStaticOutputs data))
  /\ Trimmed (adLevel (generateStaticOutputs data)).
Proof.
  split; [|split; [|split]].
  - rewrite video_adSet_eq, textJoinWith_survivors.
    apply join_Trimmed, survivors_Trimmed.
    intros v. apply cleanAdSetVideo_VideoSlug.
  - rewrite video_adLevel_eq. apply substitute_Trimmed.
    unfold videoAdLevelRaw.
    rewrite textJoin_textJoinWith, textJoinWith_survivors.
    apply join_Trimmed, survivors_Trimmed.
    intros v. apply clean_Normalized.
  - rewrite static_adSet_eq, textJoinWith_survivors.
    apply join_Trimmed, survivors_Trimmed.
    intros v. apply cleanAdSetStatic_StaticSlug.
  - rewrite static_adLevel_eq. apply substitute_Trimmed.
    unfold staticAdLevelRaw.
    rewrite textJoin_textJoinWith, textJoinWith_survivors.
    apply join_Trimmed, survivors_Trimmed.
    intros v. apply clean_Normalized.
Qed.

(** ** The final pass, once more *)

Lemma substitute_no_comma_whitespace (s : jsstring) :
  hasCommaThen isWhiteSpace (substituteCommaSpaceToDash s) = false.
Proof.
  induction s as [| c | c d r IHr IHd] using jsstring_ind2;
    try reflexivity.
  change (substituteCommaSpaceToDash (c :: d :: r))
    with (if (c =? COMMA) && isWhiteSpace d
          then DASH :: substituteCommaSpaceToDash r
          else c :: substituteCommaSpaceToDash (d :: r)).
  destruct ((c =? COMMA) && isWhiteSpace d) eqn:E.
  - destruct (substituteCommaSpaceToDash r) as [|e t] eqn:Er; [reflexivity|].
    rewrite hasCommaThen_cons, IHr. reflexivity.
  - destruct (substitute_head d r) as [t [Ht|Ht]]; rewrite Ht in *;
      rewrite hasCommaThen_cons, IHd, orb_false_r.
    + exact E.
    + rewrite andb_false_r. reflexivity.
Qed.

(** The pass is idempotent: its output has no match left. *)
Lemma substitute_idempotent (s : jsstring) :
  substituteCommaSpaceToDash (substituteCommaSpaceToDash s)
  = substituteCommaSpaceToDash s.
Proof. apply substitute_no_match, substitute_no_comma_whitespace. Qed.

(** X5.  In the ad level of either generator no comma is directly followed by
    a whitespace code unit of any kind, and running the final pass on it
    again changes nothing. *)
Theorem adLevel_no_comma_whitespace (data : FormData) :
  hasCommaThen isWhiteSpace (adLevel (generateVideoOutputs data)) = false
  /\ hasCommaThen isWhiteSpace (adLevel (generateStaticOutputs data)) = false
  /\ substituteCommaSpaceToDash (adLevel (generateVideoOutputs data))
     = adLevel (generateVideoOutputs data)
  /\ substituteCommaSpaceToDash (adLevel (generateStaticOutputs data))
     = adLevel (generateStaticOutputs data).
Proof.
  rewrite video_adLevel_eq, static_adLevel_eq.
  repeat split;
    first [apply substitute_no_comma_whitespace | apply substitute_idempotent].
Qed.

(** The pass never lengthens a string. *)
Lemma substitute_length (s : jsstring) :
  (List.length (substituteCommaSpaceToDash s) <= List.length s)%nat.
Proof.
  induction s as [| c | c d r IHr IHd] using jsstring_ind2;
    [apply Nat.le_refl | apply Nat.le_refl |].
  change (substituteCommaSpaceToDash (c :: d :: r))
    with (if (c =? COMMA) && isWhiteSpace d
          then DASH :: substituteCommaSpaceToDash r
          else c :: substituteCommaSpaceToDash (d :: r)).
  destruct ((c =? COMMA) && isWhiteSpace d); simpl List.length in *; lia.
Qed.

(** ** More on the composed pieces *)

Lemma projectCodeVariant_app (data : FormData) :
  projectCodeVariant data
  = clean (VString (projectCode data)) ++ clean (VString (variant data)).
Proof.
  unfold projectCodeVariant. destruct (variant data) as [|c v].
  - cbn [truthy]. change (clean (VString [])) with (@nil codeunit).
    rewrite app_nil_r. reflexivity.
  - reflexivity.
Qed.

(** X6.  The project code and the variant are both normalized and put side
    by side, whether the variant is empty, whitespace only or filled: a
    variant of whitespace only adds nothing. *)
Theorem projectCodeVariant_concat (data : FormData) :
  projectCodeVariant data
  = clean (VString (projectCode data)) ++ clean (VString (variant data)).
Proof. apply projectCodeVariant_app. Qed.

Example projectCodeVariant_scenario :
  clean (VString (str "087.01-001")) ++ clean (VString (str "a"))
  = str "087.01-001a".
Proof. vm_compute. reflexivity. Qed.

Lemma plainTag_S : plainTag "S-".
Proof. repeat split; try (repeat constructor); discriminate. Qed.

Lemma plainTag_A : plainTag "A-".
Proof. repeat split; try (repeat constructor); discriminate. Qed.

(** A one-part segment is empty exactly when its field normalizes to
    the empty string, and [clean] leaves it as it is. *)
Lemma tagged_empty_iff (tag : string) (x : jsstring) :
  tagged tag x = [] <-> clean (VString x) = [].
Proof.
  unfold tagged. destruct (clean (VString x)) as [|c t]; cbn [truthy].
  - split; reflexivity.
  - split; [|discriminate].
    intros H. destruct (str tag); discriminate.
Qed.

(** X7.  The segments of the static ad level: the S-segment comes from the
    carousel description, the T-segment joins the hook theme with the
    title description, the V-segment the visual theme with the visual
    object, the A-segment comes from the visual identifier; the one-part
    segments survive the ad-level join unchanged. *)
Theorem static_segments (data : FormData) :
  staticTPart data
  = segment_spec "T-" (clean (VString (hookTheme data)))
      (clean (VString (titleDesc data)))
  /\ staticVPart data
     = segment_spec "V-" (clean (VString (visualTheme data)))
         (clean (VString (visualObject data)))
  /\ clean (VString (staticSPart data)) = staticSPart data
  /\ clean (VString (staticAPart data)) = staticAPart data
  /\ (staticSPart data = [] <-> clean (VString (carouselDesc data)) = [])
  /\ (staticAPart data = []
      <-> clean (VString (visualIdentifier data)) = []).
Proof.
  split; [unfold staticTPart; apply textJoin_segment, plainTag_T|].
  split; [unfold staticVPart; apply textJoin_segment, plainTag_V|].
  split; [unfold staticSPart; apply clean_tagged, plainTag_S|].
  split; [unfold staticAPart; apply clean_tagged, plainTag_A|].
  split.
  - unfold staticSPart. apply tagged_empty_iff.
  - unfold staticAPart. apply tagged_empty_iff.
Qed.

(** A composed segment is itself normalized, so the ad-level join takes
    it over as it is. *)
Lemma segment_spec_Normalized (tag : string) (p s : jsstring) :
  plainTag tag -> Normalized p -> Normalized s ->
  Normalized (segment_spec tag p s).
Proof.
  intros [Ha [Hl Hne]] Hp Hs. unfold segment_spec.
  destruct p as [|c p]; destruct s as [|e s]; try assumption.
  - apply Normalized_prefix; try assumption. discriminate.
  - apply Normalized_prefix; try assumption; [|discriminate].
    change (c :: p ++ str "-" ++ e :: s)
      with ((c :: p) ++ str "-" ++ e :: s).
    destruct Hp as [Hpa [Hp1 _]]. destruct Hs as [Hsa [_ Hs2]].
    split; [|split].
    + apply Avoids_app. split; [exact Hpa|].
      apply Avoids_app. split; [repeat constructor | exact Hsa].
    + exact Hp1.
    + rewrite !rev_app_distr, <- app_assoc.
      apply noLeadWs_app; [apply rev_nonEmpty; discriminate | exact Hs2].
Qed.

Lemma Normalized_app (a b : jsstring) :
  Normalized a -> Normalized b -> Normalized (a ++ b).
Proof.
  intros Ha Hb. destruct a as [|c a]; [exact Hb|].
  destruct b as [|e b]; [rewrite app_nil_r; exact Ha|].
  destruct Ha as [Haa [Ha1 _]]. destruct Hb as [Hba [_ Hb2]].
  split; [|split].
  - apply Avoids_app. split; assumption.
  - exact Ha1.
  - rewrite rev_app_distr.
    apply noLeadWs_app; [apply rev_nonEmpty; discriminate | exact Hb2].
Qed.

(** X8.  Every composed piece of the video ad level, the project code with
    its variant included, enters the ad-level join unchanged: normalizing
    it again is the identity. *)
Theorem video_pieces_survive_join (data : FormData) :
  clean (VString (videoSPart data)) = videoSPart data
  /\ clean (VString (videoTPart data)) = videoTPart data
  /\ clean (VString (videoVPart data)) = videoVPart data
  /\ clean (VString (videoAPart data)) = videoAPart data
  /\ clean (VString (projectCodeVariant data)) = projectCodeVariant data.
Proof.
  split; [unfold videoSPart; apply clean_tagged, plainTag_S|].
  split; [|split; [|split]].
  - unfold videoTPart. rewrite (textJoin_segment _ _ _ plainTag_T).
    apply Normalized_clean, segment_spec_Normalized;
      [apply plainTag_T | apply clean_Normalized | apply clean_Normalized].
  - unfold videoVPart. rewrite (textJoin_segment _ _ _ plainTag_V).
    apply Normalized_clean, segment_spec_Normalized;
      [apply plainTag_V | apply clean_Normalized | apply clean_Normalized].
  - unfold videoAPart. apply clean_tagged, plainTag_A.
  - unfold projectCodeVariant. destruct (truthy (variant data)).
    + apply Normalized_clean, Normalized_app; apply clean_Normalized.
    + apply Normalized_clean, clean_Normalized.
Qed.

(** ** Values that are not strings *)

(** X9.  A part that is not a string (undefined, null, a boolean, a number,
    an object) is skipped by every join: the output is the one of the
    list without it. *)
Theorem join_skips_non_strings (delimiter : jsstring) (v : value)
  (before after : list value) :
  isString v = false ->
  textJoin delimiter (before ++ v :: after)
  = textJoin delimiter (before ++ after)
  /\ textJoinWith delimiter (before ++ v :: after) cleanAdSetVideo
     = textJoinWith delimiter (before ++ after) cleanAdSetVideo
  /\ textJoinWith delimiter (before ++ v :: after) cleanAdSetStatic
     = textJoinWith delimiter (before ++ after) cleanAdSetStatic.
Proof.
  intros Hv. pose proof (clean_not_string v Hv) as E.
  rewrite !textJoin_textJoinWith, !textJoinWith_survivors.
  change (v :: after) with ([v] ++ after).
  rewrite !survivors_app.
  rewrite (survivors_blank clean [v]) by (constructor; [exact E | constructor]).
  rewrite (survivors_blank cleanAdSetVideo [v])
    by (constructor; [unfold cleanAdSetVideo; rewrite E; reflexivity
                     | constructor]).
  rewrite (survivors_blank cleanAdSetStatic [v])
    by (constructor; [unfold cleanAdSetStatic; rewrite E; reflexivity
                     | constructor]).
  repeat split.
Qed.

Lemma join_skips_non_strings_witness :
  textJoin (str "_") ([VString (str "a")] ++ VNull :: [VString (str "b")])
  = textJoin (str "_") ([VString (str "a")] ++ [VString (str "b")]).
Proof.
  apply (join_skips_non_strings (str "_") VNull [VString (str "a")]
           [VString (str "b")]).
  reflexivity.
Defined.

(** ** The two ad-set normalizers against each other *)

Lemma removeNormalSpaces_replaceCommasWithDash (s : jsstring) :
  removeNormalSpaces (replaceCommasWithDash s)
  = replaceCommasWithDash (removeNormalSpaces s).
Proof.
  unfold removeNormalSpaces, replaceCommasWithDash.
  induction s as [|c s IH]; [reflexivity|].
  cbn [replaceAllUnit].
  destruct (c =? COMMA) eqn:Ec; destruct (c =? SPACE) eqn:Es.
  - apply N.eqb_eq in Ec, Es. subst c. discriminate.
  - cbn [app replaceAllUnit]. change (DASH =? SPACE) with false.
    rewrite Ec. cbn [app]. rewrite IH. reflexivity.
  - cbn [app replaceAllUnit]. rewrite Es. cbn [app]. exact IH.
  - cbn [app replaceAllUnit]. rewrite Ec, Es. cbn [app].
    rewrite IH. reflexivity.
Qed.

Lemma cleanAdSetStatic_cleanAdSetVideo (v : value) :
  cleanAdSetStatic v = replaceCommasWithDash (cleanAdSetVideo v).
Proof.
  unfold cleanAdSetStatic, cleanAdSetVideo.
  apply removeNormalSpaces_replaceCommasWithDash.
Qed.

(** X10.  The static ad-set normalizer is the video one followed by the
    replacement of commas by dashes: removing spaces and replacing commas
    can be done in either order. *)
Theorem cleanAdSetStatic_via_video (v : value) :
  cleanAdSetStatic v = replaceCommasWithDash (cleanAdSetVideo v).
Proof. apply cleanAdSetStatic_cleanAdSetVideo. Qed.

Lemma replaceCommasWithDash_nonEmpty (s : jsstring) :
  nonEmpty (replaceCommasWithDash s) = nonEmpty s.
Proof.
  destruct s as [|c s]; [reflexivity|].
  unfold replaceCommasWithDash. cbn [replaceAllUnit].
  destruct (c =? COMMA); reflexivity.
Qed.

Lemma replaceCommasWithDash_join (parts : list jsstring) :
  replaceCommasWithDash (join (str "_") parts)
  = join (str "_") (map replaceCommasWithDash parts).
Proof.
  unfold replaceCommasWithDash.
  induction parts as [|x l IH]; [reflexivity|].
  destruct l as [|y l]; [reflexivity|].
  change (join (str "_") (x :: y :: l))
    with (x ++ str "_" ++ join (str "_") (y :: l)).
  rewrite !replaceAllUnit_app, IH. reflexivity.
Qed.

Lemma survivors_static_via_video (parts : list value) :
  survivors cleanAdSetStatic parts
  = map replaceCommasWithDash (survivors cleanAdSetVideo parts).
Proof.
  unfold survivors. induction parts as [|v l IH]; [reflexivity|].
  cbn [map filter]. rewrite cleanAdSetStatic_cleanAdSetVideo.
  rewrite replaceCommasWithDash_nonEmpty.
  destruct (nonEmpty (cleanAdSetVideo v)); cbn [map]; rewrite IH; reflexivity.
Qed.





(** ** A form with nothing filled in *)

Lemma BlankForm_field (data : FormData) (s : jsstring) :
  BlankForm data -> In s (stringFields data) -> clean (VString s) = [].
Proof.
  intros [_ H] Hin. rewrite Forall_forall in H. apply H, Hin.
Qed.

Ltac blank_field H :=
  apply (BlankForm_field _ _ H); unfold stringFields;
  repeat (first [left; reflexivity | right]).

Lemma BlankForm_tagged (data : FormData) (tag : string) (x : jsstring) :
  BlankForm data -> In x (stringFields data) -> tagged tag x = [].
Proof.
  intros H Hin. apply tagged_empty_iff. apply (BlankForm_field _ _ H Hin).
Qed.

Lemma BlankForm_segment (data : FormData) (tag : string) (p s : jsstring) :
  plainTag tag -> BlankForm data ->
  In p (stringFields data) -> In s (stringFields data) ->
  textJoin (str "-") [VString (tagged tag p); VString s] = [].
Proof.
  intros Ht H Hp Hs. rewrite (textJoin_segment _ _ _ Ht).
  rewrite (BlankForm_field _ _ H Hp), (BlankForm_field _ _ H Hs).
  reflexivity.
Qed.

Lemma BlankForm_nconStr (data : FormData) : BlankForm data -> nconStr data = [].
Proof. intros [H _]. unfold nconStr. rewrite H. reflexivity. Qed.

Lemma BlankForm_projectCodeVariant (data : FormData) :
  BlankForm data -> projectCodeVariant data = [].
Proof.
  intros H. rewrite projectCodeVariant_app.
  assert (E1 : clean (VString (projectCode data)) = []) by blank_field H.
  assert (E2 : clean (VString (variant data)) = []) by blank_field H.
  rewrite E1, E2. reflexivity.
Qed.

Lemma blank_cleanAdSetVideo (s : jsstring) :
  clean (VString s) = [] -> cleanAdSetVideo (VString s) = [].
Proof. intros E. unfold cleanAdSetVideo. rewrite E. reflexivity. Qed.

Lemma blank_cleanAdSetStatic (s : jsstring) :
  clean (VString s) = [] -> cleanAdSetStatic (VString s) = [].
Proof. intros E. unfold cleanAdSetStatic. rewrite E. reflexivity. Qed.

(** X12.  When the flag is off and every field is empty or holds only
    whitespace and zero-width code units, both generators return the empty
    string twice. *)
Theorem blank_form_empty_outputs (data : FormData) :
  BlankForm data ->
  generateVideoOutputs data = {| adSet := []; adLevel := [] |}
  /\ generateStaticOutputs data = {| adSet := []; adLevel := [] |}.
Proof.
  intros H.
  pose proof (BlankForm_nconStr data H) as En.
  pose proof (BlankForm_projectCodeVariant data H) as Ep.
  assert (Evs : videoSPart data = [])
    by (apply (BlankForm_tagged data _ _ H); unfold stringFields;
        repeat (first [left; reflexivity | right])).
  assert (Eva : videoAPart data = [])
    by (apply (BlankForm_tagged data _ _ H); unfold stringFields;
        repeat (first [left; reflexivity | right])).
  assert (Evt : videoTPart data = [])
    by (apply (BlankForm_segment data _ _ _ plainTag_T H);
        unfold stringFields; repeat (first [left; reflexivity | right])).
  assert (Evv : videoVPart data = [])
    by (apply (BlankForm_segment data _ _ _ plainTag_V H);
        unfold stringFields; repeat (first [left; reflexivity | right])).
  assert (Ess : staticSPart data = [])
    by (apply (BlankForm_tagged data _ _ H); unfold stringFields;
        repeat (first [left; reflexivity | right])).
  assert (Esa : staticAPart data = [])
    by (apply (BlankForm_tagged data _ _ H); unfold stringFields;
        repeat (first [left; reflexivity | right])).
  assert (Est : staticTPart data = [])
    by (apply (BlankForm_segment data _ _ _ plainTag_T H);
        unfold stringFields; repeat (first [left; reflexivity | right])).
  assert (Esv : staticVPart data = [])
    by (apply (BlankForm_segment data _ _ _ plainTag_V H);
        unfold stringFields; repeat (first [left; reflexivity | right])).
  assert (A1 : survivors cleanAdSetVideo (videoAdSetParts data) = []).
  { apply survivors_blank. unfold videoAdSetParts. rewrite En.
    repeat (constructor;
            [first [reflexivity | apply blank_cleanAdSetVideo; blank_field H]|]).
    constructor. }
  assert (A2 : survivors cleanAdSetStatic (staticAdSetParts data) = []).
  { apply survivors_blank. unfold staticAdSetParts, ageStr. rewrite En.
    repeat (constructor;
            [first [reflexivity | apply blank_cleanAdSetStatic; blank_field H]|]).
    constructor. }
  assert (L1 : survivors clean (videoAdLevelParts data) = []).
  { apply survivors_blank. unfold videoAdLevelParts, videoAdLevelList.
    rewrite En, Ep, Evs, Evt, Evv, Eva.
    repeat (constructor; [first [reflexivity | blank_field H]|]).
    constructor. }
  assert (L2 : survivors clean (staticAdLevelParts data) = []).
  { apply survivors_blank.
    unfold staticAdLevelParts, staticAdLevelList, ageStr.
    rewrite En, Ep, Ess, Est, Esv, Esa.
    repeat (constructor; [first [reflexivity | blank_field H]|]).
    constructor. }
  split.
  - unfold generateVideoOutputs, videoAdLevelRaw.
    rewrite textJoin_textJoinWith, !textJoinWith_survivors, A1, L1.
    reflexivity.
  - unfold generateStaticOutputs, staticAdLevelRaw.
    rewrite textJoin_textJoinWith, !textJoinWith_survivors, A2, L2.
    reflexivity.
Qed.

Lemma blank_form_empty_outputs_witness :
  generateVideoOutputs blankishForm = {| adSet := []; adLevel := [] |}
  /\ generateStaticOutputs blankishForm = {| adSet := []; adLevel := [] |}.
Proof.
  apply (blank_form_empty_outputs blankishForm).
  split; [reflexivity|]. unfold stringFields.
  repeat (constructor; [vm_compute; reflexivity|]). constructor.
Defined.

(** ** Fields the ad level does not read *)

Lemma videoAdLevelParts_withAdSetOnly (data : FormData) (tv td : jsstring) :
  videoAdLevelParts (withAdSetOnly data tv td) = videoAdLevelParts data.
Proof. reflexivity. Qed.

Lemma staticAdLevelParts_withAdSetOnly (data : FormData) (tv td : jsstring) :
  staticAdLevelParts (withAdSetOnly data tv td) = staticAdLevelParts data.
Proof. reflexivity. Qed.

(** X13.  The test variable and the test description enter the ad set only:
    whatever they are replaced by, the ad level of both generators stays
    the same. *)
Theorem adLevel_ignores_test_fields (data : FormData)
  (testVariable' testDesc' : jsstring) :
  adLevel (generateVideoOutputs (withAdSetOnly data testVariable' testDesc'))
  = adLevel (generateVideoOutputs data)
  /\ adLevel (generateStaticOutputs
                (withAdSetOnly data testVariable' testDesc'))
     = adLevel (generateStaticOutputs data).
Proof.
  rewrite (video_adLevel_eq (withAdSetOnly data testVariable' testDesc')).
  rewrite (video_adLevel_eq data).
  rewrite (static_adLevel_eq (withAdSetOnly data testVariable' testDesc')).
  rewrite (static_adLevel_eq data).
  unfold videoAdLevelRaw, staticAdLevelRaw.
  rewrite videoAdLevelParts_withAdSetOnly, staticAdLevelParts_withAdSetOnly.
  split; reflexivity.
Qed.

(** ** What the generators leave in the shared regular expression *)

Section StatefulStore.

Lemma Settles_ret {A : Type} (a : A) : Settles (Stateful.ret a).
Proof. intros st b st' E. injection E as _ <-. left. reflexivity. Qed.

Lemma Settles_bind {A B : Type} (m : Stateful.M A) (f : A -> Stateful.M B) :
  Settles m -> (forall a, Settles (f a)) -> Settles (Stateful.bind m f).
Proof.
  intros Hm Hf st b st2 E. unfold Stateful.bind in E.
  destruct (m st) as [[a st1]|] eqn:E1; [|discriminate].
  destruct (Hm _ _ _ E1) as [-> | ->].
  - apply (Hf a _ _ _ E).
  - destruct (Hf a _ _ _ E) as [-> | ->]; right; reflexivity.
Qed.

Lemma Resets_bind {A B : Type} (m : Stateful.M A) (f : A -> Stateful.M B) :
  Resets m -> (forall a, Settles (f a)) -> Resets (Stateful.bind m f).
Proof.
  intros Hm Hf st b st2 E. unfold Stateful.bind in E.
  destruct (m st) as [[a st1]|] eqn:E1; [|discriminate].
  rewrite (Hm _ _ _ E1) in E.
  destruct (Hf a _ _ _ E) as [-> | ->]; reflexivity.
Qed.

Lemma Resets_Settles {A : Type} (m : Stateful.M A) : Resets m -> Settles m.
Proof. intros H st a st' E. right. apply (H _ _ _ E). Qed.

Lemma Resets_clean_string (s : jsstring) : Resets (Stateful.clean (VString s)).
Proof.
  intros st a st' E. cbn [Stateful.clean] in E. unfold Stateful.bind in E.
  rewrite replaceCleanRe_run in E. injection E as _ <-. reflexivity.
Qed.

Lemma Settles_clean (v : value) : Settles (Stateful.clean v).
Proof.
  destruct v; try apply Settles_ret.
  apply Resets_Settles, Resets_clean_string.
Qed.

Lemma Settles_mapM {A B : Type} (f : A -> Stateful.M B) (l : list A) :
  (forall a, Settles (f a)) -> Settles (Stateful.mapM f l).
Proof.
  intros H. induction l as [|a l IH]; [apply Settles_ret|].
  cbn [Stateful.mapM]. apply Settles_bind; [apply H|].
  intros b. apply Settles_bind; [apply IH|]. intros bs. apply Settles_ret.
Qed.

Lemma Settles_textJoin (delimiter : jsstring) (parts : list value) :
  Settles (Stateful.textJoin delimiter parts).
Proof.
  apply Settles_bind; [apply Settles_mapM, Settles_clean|].
  intros a. apply Settles_ret.
Qed.

Lemma Settles_textJoinWith (delimiter : jsstring) (parts : list value)
  (cleaner : value -> Stateful.M jsstring) :
  (forall v, Settles (cleaner v)) ->
  Settles (Stateful.textJoinWith delimiter parts cleaner).
Proof.
  intros H. apply Settles_bind; [apply Settles_mapM, H|].
  intros a. apply Settles_ret.
Qed.

Lemma Settles_cleanAdSetVideo (v : value) :
  Settles (Stateful.cleanAdSetVideo v).
Proof.
  apply Settles_bind; [apply Settles_clean | intros a; apply Settles_ret].
Qed.

Lemma Settles_cleanAdSetStatic (v : value) :
  Settles (Stateful.cleanAdSetStatic v).
Proof.
  apply Settles_bind; [apply Settles_clean | intros a; apply Settles_ret].
Qed.

Lemma Settles_tagged (tag : string) (x : jsstring) :
  Settles (Stateful.tagged tag x).
Proof.
  apply Settles_bind; [apply Settles_clean|]. intros c.
  destruct (truthy c); [|apply Settles_ret].
  apply Settles_bind; [apply Settles_clean | intros a; apply Settles_ret].
Qed.

Lemma Settles_segment (tag : string) (p s : jsstring) :
  Settles (Stateful.segment tag p s).
Proof.
  apply Settles_bind; [apply Settles_tagged|].
  intros t. apply Settles_textJoin.
Qed.

Lemma Resets_projectCodeVariant (data : FormData) :
  Resets (Stateful.projectCodeVariant data).
Proof.
  unfold Stateful.projectCodeVariant.
  destruct (truthy (variant data)); [|apply Resets_clean_string].
  apply Resets_bind; [apply Resets_clean_string|]. intros a.
  apply Settles_bind; [apply Settles_clean | intros b; apply Settles_ret].
Qed.

Lemma Resets_generateVideoOutputs (data : FormData) :
  Resets (Stateful.generateVideoOutputs data).
Proof.
  unfold Stateful.generateVideoOutputs.
  apply Resets_bind; [apply Resets_projectCodeVariant|]. intros pcv.
  apply Settles_bind;
    [apply Settles_textJoinWith, Settles_cleanAdSetVideo|]. intros a.
  apply Settles_bind; [apply Settles_tagged|]. intros sp.
  apply Settles_bind; [apply Settles_segment|]. intros tp.
  apply Settles_bind; [apply Settles_segment|]. intros vp.
  apply Settles_bind; [apply Settles_tagged|]. intros ap.
  apply Settles_bind; [apply Settles_textJoin|]. intros raw.
  apply Settles_ret.
Qed.

Lemma Resets_generateStaticOutputs (data : FormData) :
  Resets (Stateful.generateStaticOutputs data).
Proof.
  unfold Stateful.generateStaticOutputs.
  apply Resets_bind; [apply Resets_projectCodeVariant|]. intros pcv.
  apply Settles_bind;
    [apply Settles_textJoinWith, Settles_cleanAdSetStatic|]. intros a.
  apply Settles_bind; [apply Settles_tagged|]. intros sp.
  apply Settles_bind; [apply Settles_segment|]. intros tp.
  apply Settles_bind; [apply Settles_segment|]. intros vp.
  apply Settles_bind; [apply Settles_tagged|]. intros ap.
  apply Settles_bind; [apply Settles_textJoin|]. intros raw.
  apply Settles_ret.
Qed.

End StatefulStore.

(** X14.  The loop of matches of [s.replace(CLEAN_RE, '')] never runs out of
    its fuel of one more than the length of the string; from every value
    of [lastIndex] the call gives the string without the four code units
    and leaves [lastIndex] at 0. *)
Theorem replaceCleanRe_total (s : jsstring) (st : Stateful.Store) :
  Stateful.replaceCleanRe s st
  = Some (filter (fun c => negb (CLEAN_RE c)) s,
          {| Stateful.lastIndex := 0 |}).
Proof. rewrite replaceCleanRe_run, replaceAllUnit_delete. reflexivity. Qed.

(** X15.  Whatever [lastIndex] of the shared regular expression was before,
    each generator ends with a result and with [lastIndex] back at 0. *)
Theorem generators_reset_lastIndex (data : FormData) (st : Stateful.Store) :
  Stateful.generateVideoOutputs data st
  = Some (generateVideoOutputs data, {| Stateful.lastIndex := 0 |})
  /\ Stateful.generateStaticOutputs data st
     = Some (generateStaticOutputs data, {| Stateful.lastIndex := 0 |}).
Proof.
  split.
  - destruct (generateVideoOutputs_Returns data st) as [st' E].
    rewrite E. rewrite (Resets_generateVideoOutputs data _ _ _ E).
    reflexivity.
  - destruct (generateStaticOutputs_Returns data st) as [st' E].
    rewrite E. rewrite (Resets_generateStaticOutputs data _ _ _ E).
    reflexivity.
Qed.

(** ** The multi-select field *)

Lemma jsstring_eqb_eq (a b : jsstring) : jsstring_eqb a b = true <-> a = b.
Proof.
  revert b. induction a as [|x a IH]; intros [|y b]; simpl;
    try (split; [discriminate | discriminate]); [tauto|].
  rewrite andb_true_iff, N.eqb_eq, IH. split.
  - intros [-> ->]. reflexivity.
  - intros E. injection E as -> ->. split; reflexivity.
Qed.

Lemma jsstring_eqb_refl (a : jsstring) : jsstring_eqb a a = true.
Proof. apply jsstring_eqb_eq. reflexivity. Qed.

Lemma includes_In (values : list jsstring) (option : jsstring) :
  includes values option = true <-> In option values.
Proof.
  unfold includes. rewrite existsb_exists. split.
  - intros [v [Hin E]]. apply jsstring_eqb_eq in E. subst v. exact Hin.
  - intros Hin. exists option. split; [exact Hin | apply jsstring_eqb_refl].
Qed.

Lemma includes_not_In (values : list jsstring) (option : jsstring) :
  ~ In option values -> includes values option = false.
Proof.
  intros H. destruct (includes values option) eqn:E; [|reflexivity].
  apply includes_In in E. contradiction.
Qed.

Lemma without_In (values : list jsstring) (option v : jsstring) :
  In v (without values option) <-> In v values /\ v <> option.
Proof.
  unfold without. rewrite filter_In, negb_true_iff. split.
  - intros [Hin E]. split; [exact Hin|]. intros ->.
    rewrite jsstring_eqb_refl in E. discriminate.
  - intros [Hin Hne]. split; [exact Hin|].
    destruct (jsstring_eqb v option) eqn:E; [|reflexivity].
    apply jsstring_eqb_eq in E. contradiction.
Qed.

Lemma without_not_In (values : list jsstring) (option : jsstring) :
  ~ In option values -> without values option = values.
Proof.
  unfold without. induction values as [|v l IH]; intros H; [reflexivity|].
  cbn [filter]. destruct (jsstring_eqb v option) eqn:E.
  - apply jsstring_eqb_eq in E. subst v. exfalso. apply H. left. reflexivity.
  - cbn [negb]. rewrite IH; [reflexivity|].
    intros Hin. apply H. right. exact Hin.
Qed.

Lemma without_snoc (values : list jsstring) (option : jsstring) :
  ~ In option values -> without (values ++ [option]) option = values.
Proof.
  intros H. unfold without. rewrite filter_app. cbn [filter].
  rewrite jsstring_eqb_refl. cbn [negb]. rewrite app_nil_r.
  apply (without_not_In values option H).
Qed.

Lemma without_Forall (P : jsstring -> Prop) (values : list jsstring)
  (option : jsstring) :
  Forall P values -> Forall P (without values option).
Proof.
  intros H. apply Forall_forall. intros v Hv. apply without_In in Hv.
  rewrite Forall_forall in H. apply H, Hv.
Qed.

Lemma split_not_nil (sep : codeunit) (s : jsstring) : split sep s <> [].
Proof.
  destruct s as [|c s]; [discriminate|]. cbn [split].
  destruct (c =? sep); [discriminate|].
  destruct (split sep s); discriminate.
Qed.

(** No piece of a split holds the separator. *)
Lemma split_pieces (sep : codeunit) (s : jsstring) :
  Forall (fun p => ~ In sep p) (split sep s).
Proof.
  induction s as [|c s IH]; [repeat constructor; intros []|].
  cbn [split]. destruct (c =? sep) eqn:E.
  - constructor; [intros [] | exact IH].
  - destruct (split sep s) as [|p ps]; [repeat constructor|].
    + intros [H|[]]. subst c. rewrite N.eqb_refl in E. discriminate.
    + inversion IH as [|? ? Hp Hps]; subst. constructor; [|exact Hps].
      intros [H|H]; [|exact (Hp H)].
      subst c. rewrite N.eqb_refl in E. discriminate.
Qed.

Lemma split_app_sep (sep : codeunit) (x r : jsstring) :
  ~ In sep x -> split sep (x ++ sep :: r) = x :: split sep r.
Proof.
  induction x as [|c x IH]; intros H.
  - cbn [app split]. rewrite N.eqb_refl. reflexivity.
  - cbn [app split]. destruct (c =? sep) eqn:E.
    + apply N.eqb_eq in E. subst c. exfalso. apply H. left. reflexivity.
    + rewrite IH; [reflexivity|]. intros Hin. apply H. right. exact Hin.
Qed.

Lemma join_cons (delimiter x : jsstring) (l : list jsstring) :
  l <> [] -> join delimiter (x :: l) = x ++ delimiter ++ join delimiter l.
Proof. destruct l; [congruence | reflexivity]. Qed.

(** Splitting a dash-joined list: the dash-free entries come back one by
    one, the last entry is split in turn. *)
Lemma split_join_snoc (values : list jsstring) (last : jsstring) :
  Forall (fun p => ~ In DASH p) values ->
  split DASH (join (str "-") (values ++ [last])) = values ++ split DASH last.
Proof.
  induction 1 as [|x l Hx Hl IH]; [reflexivity|].
  cbn [app]. rewrite join_cons by (destruct l; discriminate).
  change (str "-" ++ join (str "-") (l ++ [last]))
    with (DASH :: join (str "-") (l ++ [last])).
  rewrite (split_app_sep DASH x _ Hx). apply f_equal. exact IH.
Qed.

Lemma filter_truthy_Selectable (values : list jsstring) :
  Forall Selectable values -> filter truthy values = values.
Proof.
  induction 1 as [|x l [Hx _] Hl IH]; [reflexivity|].
  cbn [filter]. destruct x; [congruence|]. cbn [truthy]. rewrite IH.
  reflexivity.
Qed.

Lemma Selectable_dashfree (values : list jsstring) :
  Forall Selectable values -> Forall (fun p => ~ In DASH p) values.
Proof. apply Forall_impl. intros v [_ H]. exact H. Qed.

Lemma selectedValues_of_nonEmpty (value : jsstring) :
  value <> [] -> selectedValues value = filter truthy (split DASH value).
Proof. destruct value; [congruence | reflexivity]. Qed.

(** Parsing a joined list whose last entry may hold dashes. *)
Lemma selectedValues_join_snoc (values : list jsstring) (last : jsstring) :
  Forall Selectable values -> last <> [] ->
  selectedValues (join (str "-") (values ++ [last]))
  = values ++ selectedValues last.
Proof.
  intros Hv Hl. rewrite selectedValues_of_nonEmpty.
  - rewrite (split_join_snoc _ _ (Selectable_dashfree _ Hv)), filter_app.
    rewrite (filter_truthy_Selectable _ Hv).
    rewrite (selectedValues_of_nonEmpty last Hl). reflexivity.
  - destruct Hv as [|x l [Hx _] _]; [exact Hl|].
    cbn [app]. apply join_nonEmpty, Hx.
Qed.

Lemma selectedValues_single (option : jsstring) :
  Selectable option -> selectedValues option = [option].
Proof.
  intros [Hne Hd]. rewrite (selectedValues_of_nonEmpty _ Hne).
  replace option with (option ++ []) at 1 by apply app_nil_r.
  assert (E : split DASH option = [option]).
  { clear Hne. induction option as [|c o IH]; [reflexivity|].
    cbn [split]. destruct (c =? DASH) eqn:E.
    - apply N.eqb_eq in E. subst c. exfalso. apply Hd. left. reflexivity.
    - rewrite IH; [reflexivity|]. intros H. apply Hd. right. exact H. }
  rewrite app_nil_r, E. cbn [filter]. destruct option; [congruence|].
  reflexivity.
Qed.

Lemma selectedValues_all_Selectable (value : jsstring) :
  Forall Selectable (selectedValues value).
Proof.
  unfold selectedValues. destruct (truthy value); [|constructor].
  pose proof (split_pieces DASH value) as H.
  apply Forall_forall. intros v Hv. apply filter_In in Hv.
  destruct Hv as [Hin Ht]. rewrite Forall_forall in H. split.
  - destruct v; [discriminate | discriminate].
  - apply H, Hin.
Qed.

Lemma selectedValues_join_list (values : list jsstring) :
  Forall Selectable values ->
  selectedValues (join (str "-") values) = values.
Proof.
  intros H. destruct (rev values) as [|last front] eqn:E.
  - apply (f_equal (@rev jsstring)) in E. rewrite rev_involutive in E.
    subst values. reflexivity.
  - apply (f_equal (@rev jsstring)) in E. rewrite rev_involutive in E.
    cbn [rev] in E. subst values.
    apply Forall_app in H. destruct H as [Hf Hl].
    inversion Hl as [|? ? Hlast _]; subst.
    rewrite (selectedValues_join_snoc _ _ Hf (proj1 Hlast)).
    rewrite (selectedValues_single _ Hlast). reflexivity.
Qed.

Ltac selectable :=
  split;
  [ discriminate
  | let H := fresh in
    intros H; vm_compute in H;
    repeat (destruct H as [H|H]; [discriminate|]); exact H ].

(** X18.  Every selected value read off the form string is non-empty and
    holds no dash, and joining the selected values and reading them again
    gives the same list. *)
Theorem selectedValues_stable (value : jsstring) :
  Forall Selectable (selectedValues value)
  /\ selectedValues (join (str "-") (selectedValues value))
     = selectedValues value.
Proof.
  split; [apply selectedValues_all_Selectable|].
  apply selectedValues_join_list, selectedValues_all_Selectable.
Qed.

(** X19.  A list of non-empty, dash-free options survives the round trip
    through the form string. *)
Theorem selectedValues_join (values : list jsstring) :
  Forall Selectable values ->
  selectedValues (join (str "-") values) = values.
Proof. apply selectedValues_join_list. Qed.

Lemma selectedValues_join_witness :
  selectedValues (join (str "-") [str "Fear"; str "Urgency"])
  = [str "Fear"; str "Urgency"].
Proof.
  apply (selectedValues_join [str "Fear"; str "Urgency"]).
  constructor; [selectable|]. constructor; [selectable | constructor].
Defined.

Lemma Selectable_snoc (values : list jsstring) (option : jsstring) :
  Forall Selectable values -> Selectable option ->
  Forall Selectable (values ++ [option]).
Proof.
  intros Hv Ho. apply Forall_app. split; [exact Hv|].
  constructor; [exact Ho | constructor].
Qed.

Lemma toggleOption_new (value option : jsstring) :
  ~ In option (selectedValues value) ->
  toggleOption value option
  = join (str "-") (selectedValues value ++ [option]).
Proof.
  intros H. unfold toggleOption. rewrite (includes_not_In _ _ H).
  reflexivity.
Qed.

Lemma toggleOption_old (value option : jsstring) :
  In option (selectedValues value) ->
  toggleOption value option
  = join (str "-") (without (selectedValues value) option).
Proof.
  intros H. unfold toggleOption.
  rewrite (proj2 (includes_In _ _) H). reflexivity.
Qed.

(** X20.  Toggling an option that is not selected, non-empty and without a
    dash appends it to the selection; toggling it once more gives the
    selection back as it was. *)
Theorem toggleOption_on_off (value option : jsstring) :
  Selectable option ->
  ~ In option (selectedValues value) ->
  selectedValues (toggleOption value option)
  = selectedValues value ++ [option]
  /\ selectedValues (toggleOption (toggleOption value option) option)
     = selectedValues value.
Proof.
  intros Ho Hn.
  pose proof (selectedValues_all_Selectable value) as Hv.
  assert (E : selectedValues (toggleOption value option)
              = selectedValues value ++ [option]).
  { rewrite (toggleOption_new _ _ Hn).
    apply selectedValues_join_list, Selectable_snoc; assumption. }
  split; [exact E|].
  rewrite (toggleOption_old (toggleOption value option) option).
  - rewrite E, (without_snoc _ _ Hn).
    apply selectedValues_join_list, Hv.
  - rewrite E. apply in_or_app. right. left. reflexivity.
Qed.

Lemma toggleOption_on_off_witness :
  selectedValues (toggleOption (str "Fear") (str "Urgency"))
  = selectedValues (str "Fear") ++ [str "Urgency"]
  /\ selectedValues
       (toggleOption (toggleOption (str "Fear") (str "Urgency"))
          (str "Urgency"))
     = selectedValues (str "Fear").
Proof.
  apply (toggleOption_on_off (str "Fear") (str "Urgency")).
  - selectable.
  - intros H. vm_compute in H. destruct H as [H|[]]. discriminate.
Defined.

(** X21.  Toggling a selected option and removing a value by its chip do the
    same: the option is gone from the selection, every occurrence of it,
    and the other values stay in their order. *)
Theorem removeValue_removes (value option : jsstring) :
  selectedValues (removeValue value option)
  = without (selectedValues value) option
  /\ ~ In option (selectedValues (removeValue value option))
  /\ (In option (selectedValues value) ->
      toggleOption value option = removeValue value option).
Proof.
  assert (E : selectedValues (removeValue value option)
              = without (selectedValues value) option).
  { unfold removeValue. apply selectedValues_join_list, without_Forall.
    apply selectedValues_all_Selectable. }
  split; [exact E|]. split.
  - rewrite E. intros H. apply without_In in H. destruct H as [_ H].
    apply H. reflexivity.
  - intros H. apply toggleOption_old, H.
Qed.

Lemma removeValue_removes_witness :
  toggleOption (str "Fear-Urgency") (str "Fear")
  = removeValue (str "Fear-Urgency") (str "Fear").
Proof.
  apply (removeValue_removes (str "Fear-Urgency") (str "Fear")).
  vm_compute. left. reflexivity.
Defined.

(** X22.  An option that holds a dash is never found among the selected
    values, so toggling it never deselects: each toggle appends it again,
    and what the field then shows as selected are its dash-separated
    pieces. *)
Theorem toggleOption_dashed_option (value option : jsstring) :
  In DASH option ->
  includes (selectedValues value) option = false
  /\ toggleOption value option
     = join (str "-") (selectedValues value ++ [option])
  /\ selectedValues (toggleOption value option)
     = selectedValues value ++ selectedValues option.
Proof.
  intros Hd.
  pose proof (selectedValues_all_Selectable value) as Hv.
  assert (Hn : ~ In option (selectedValues value)).
  { intros Hin. rewrite Forall_forall in Hv.
    destruct (Hv _ Hin) as [_ H]. exact (H Hd). }
  split; [apply includes_not_In, Hn|].
  split; [apply toggleOption_new, Hn|].
  rewrite (toggleOption_new _ _ Hn).
  apply selectedValues_join_snoc; [exact Hv|].
  destruct option; [destruct Hd | discriminate].
Qed.

Lemma toggleOption_dashed_option_witness :
  selectedValues (toggleOption (str "A-B") (str "A-B"))
  = selectedValues (str "A-B") ++ selectedValues (str "A-B").
Proof.
  apply (toggleOption_dashed_option (str "A-B") (str "A-B")).
  vm_compute. tauto.
Defined.

(** ** Emptiness of a join, and normalizing after the join *)

Lemma join_nil_iff (delimiter : jsstring) (parts : list jsstring) :
  Forall (fun s => s <> []) parts ->
  (join delimiter parts = [] <-> parts = []).
Proof.
  intros H. split; [|intros ->; reflexivity].
  destruct H as [|x l Hx _]; [reflexivity|].
  intros E. exfalso. exact (join_nonEmpty delimiter x l Hx E).
Qed.

Lemma survivors_nil_iff (cleaner : value -> jsstring) (parts : list value) :
  survivors cleaner parts = [] <-> Forall (fun v => cleaner v = []) parts.
Proof.
  split; [|apply survivors_blank].
  unfold survivors. induction parts as [|v l IH]; [constructor|].
  cbn [map filter]. destruct (cleaner v) as [|c s] eqn:E.
  - cbn [nonEmpty truthy]. intros H. constructor; [exact E | apply IH, H].
  - cbn [nonEmpty truthy]. discriminate.
Qed.

(** X16.  A join is the empty string exactly when every value normalizes to
    the empty string; one value that does not makes the output non-empty,
    whatever the delimiter. *)
Theorem textJoinWith_empty_iff (delimiter : jsstring) (parts : list value)
  (cleaner : value -> jsstring) :
  textJoinWith delimiter parts cleaner = []
  <-> Forall (fun v => cleaner v = []) parts.
Proof.
  rewrite textJoinWith_survivors, <- survivors_nil_iff.
  apply join_nil_iff, survivors_nonEmpty.
Qed.

Lemma removeNormalSpaces_join (parts : list jsstring) :
  removeNormalSpaces (join (str "_") parts)
  = join (str "_") (map removeNormalSpaces parts).
Proof.
  unfold removeNormalSpaces.
  induction parts as [|x l IH]; [reflexivity|].
  destruct l as [|y l]; [reflexivity|].
  change (join (str "_") (x :: y :: l))
    with (x ++ str "_" ++ join (str "_") (y :: l)).
  rewrite !replaceAllUnit_app, IH. reflexivity.
Qed.

Lemma removeNormalSpaces_nonEmpty (s : jsstring) :
  noLeadWs s -> nonEmpty (removeNormalSpaces s) = nonEmpty s.
Proof.
  destruct s as [|c s]; [reflexivity|]. intros H.
  unfold removeNormalSpaces. cbn [replaceAllUnit].
  destruct (c =? SPACE) eqn:E; [|reflexivity].
  apply space_is_whitespace in E. cbn [noLeadWs] in H. congruence.
Qed.

Lemma survivors_video_via_clean (parts : list value) :
  survivors cleanAdSetVideo parts
  = map removeNormalSpaces (survivors clean parts).
Proof.
  unfold survivors. induction parts as [|v l IH]; [reflexivity|].
  cbn [map filter]. unfold cleanAdSetVideo at 1 2.
  rewrite removeNormalSpaces_nonEmpty by apply clean_Normalized.
  destruct (nonEmpty (clean v)); cbn [map]; rewrite IH; reflexivity.
Qed.

(** X17.  Normalizing field by field or after the join comes to the same: the
    video ad-set join is the default join with the spaces removed from
    the joined string, and the static one is the default join with the
    commas replaced and the spaces removed. *)
Theorem adSet_join_then_slug (parts : list value) :
  textJoinWith (str "_") parts cleanAdSetVideo
  = removeNormalSpaces (textJoin (str "_") parts)
  /\ textJoinWith (str "_") parts cleanAdSetStatic
     = removeNormalSpaces (replaceCommasWithDash (textJoin (str "_") parts)).
Proof.
  rewrite textJoin_textJoinWith, !textJoinWith_survivors.
  rewrite survivors_static_via_video, survivors_video_via_clean.
  rewrite removeNormalSpaces_replaceCommasWithDash.
  rewrite removeNormalSpaces_join, replaceCommasWithDash_join.
  split; reflexivity.
Qed.
